(** * extract_checklists: line scanner and step hierarchy

    A shallow embedding of [src/data/extract_checklists.py]: the scan loop of
    [parse_checklist], the hierarchy builder ([add_step_to_hierarchy],
    [find_parent_and_add_step]) and the validator ([validate_checklists],
    [validate_steps]).

    Modelling conventions.
    - A Python [str] is a [list ascii]; a character is its code point, so the
      model covers text whose code points are below 256.  On that range the
      classes [\s], [\d] and [str.strip] of Python are the ones written below.
    - The regular expressions of the source are terms of a small regex
      syntax, run by a backtracking matcher that tries alternatives in the
      order of Python's [re] (greedy: longest first; lazy: shortest first).
    - [parse_checklist] mutates local variables in a [while] loop; the model
      threads a record of those variables through one function per loop
      iteration.
    - The [id] fields (a fresh [uuid4] each) are left out: nothing reads them.
    - Logging is left out, except that the validator's diagnostic count, which
      the source computes, is computed here too. *)

From Stdlib Require Import Ascii String List ZArith NArith Bool Arith Lia.
Import ListNotations.

Set Implicit Arguments.
Set Warnings "-register-all".

(** ** Characters and strings *)

Definition str := list ascii.

(** A string literal of the source. *)
Definition L (s : string) : str := list_ascii_of_string s.

Definition code (c : ascii) : N := N_of_ascii c.

Definition in_range (lo hi : N) (c : ascii) : bool :=
  (N.leb lo (code c) && N.leb (code c) hi)%bool.

Definition chr (n : N) : ascii := ascii_of_N n.

(** [A-Z] *)
Definition is_upper (c : ascii) : bool := in_range 65 90 c.
(** [a-z] *)
Definition is_lower (c : ascii) : bool := in_range 97 122 c.
(** [\d] *)
Definition is_digit (c : ascii) : bool := in_range 48 57 c.
(** [A-Z0-9 ] *)
Definition is_upper_digit_space (c : ascii) : bool :=
  is_upper c || is_digit c || N.eqb (code c) 32.
(** [\s], and the characters [str.strip] removes: TAB..CR, FS..US, space,
    NEL and NBSP. *)
Definition is_space (c : ascii) : bool :=
  in_range 9 13 c || in_range 28 32 c || N.eqb (code c) 133 || N.eqb (code c) 160.
(** [.] : anything but a newline *)
Definition not_newline (c : ascii) : bool := negb (N.eqb (code c) 10).
Definition is_dot (c : ascii) : bool := N.eqb (code c) 46.
(** the double quote (code 34), and the class of everything else *)
Definition is_dquote (c : ascii) : bool := N.eqb (code c) 34.
Definition not_dquote (c : ascii) : bool := negb (is_dquote c).

Definition str_eqb (a b : str) : bool :=
  if list_eq_dec ascii_dec a b then true else false.

(** Python truthiness of a [str] and of an [Optional[str]]. *)
Definition truthy (s : str) : bool :=
  match s with [] => false | _ :: _ => true end.

Definition otruthy (o : option str) : bool :=
  match o with Some s => truthy s | None => false end.

Fixpoint lstrip (s : str) : str :=
  match s with
  | c :: s' => if is_space c then lstrip s' else s
  | [] => []
  end.

Definition rstrip (s : str) : str := rev (lstrip (rev s)).

Definition strip (s : str) : str := rstrip (lstrip s).

Fixpoint starts_with (p s : str) : bool :=
  match p, s with
  | [], _ => true
  | a :: p', b :: s' => Ascii.eqb a b && starts_with p' s'
  | _ :: _, [] => false
  end.

(** [sub in s] *)
Fixpoint contains (sub s : str) : bool :=
  starts_with sub s ||
  match s with
  | [] => false
  | _ :: s' => contains sub s'
  end.

(** [s.split(sep)] for a non-empty separator: the pieces between the
    occurrences of [sep], found left to right without overlap.  [skip] counts
    the characters of an occurrence still to be passed over. *)
Fixpoint split_aux (sep : str) (skip : nat) (s cur : str) : list str :=
  match s with
  | [] => [rev cur]
  | c :: s' =>
      match skip with
      | S k => split_aux sep k s' cur
      | O => if starts_with sep s
             then rev cur :: split_aux sep (length sep - 1) s' []
             else split_aux sep 0 s' (c :: cur)
      end
  end.

Definition split (sep s : str) : list str := split_aux sep 0 s [].

(** [re.sub(r'\.+', '', s)]: every run of dots is replaced by nothing. *)
Fixpoint sub_dots (s : str) : str :=
  match s with
  | [] => []
  | c :: s' => if is_dot c then sub_dots s' else c :: sub_dots s'
  end.

(** [str.lower] on code points below 256. *)
Definition lower (c : ascii) : ascii :=
  if is_upper c || (in_range 192 222 c && negb (N.eqb (code c) 215))
  then chr (code c + 32) else c.

(** ** Regular expressions

    The fragment of Python's [re] syntax the source uses.  A quantifier is
    only ever applied to a character class.  [re.match] anchors at the start
    of the string, which makes the leading [^] of every pattern redundant; it
    has no constructor. *)

Inductive regex : Type :=
| Chr (c : ascii)                                 (* one literal character *)
| Lit (s : str)                                   (* a literal string *)
| Cls (p : ascii -> bool)                         (* one character of a class *)
| Rep (p : ascii -> bool) (min : nat) (greedy : bool)
                                                  (* p* p+ (greedy) or p+? *)
| Cat (r1 r2 : regex)
| Alt (r1 r2 : regex)
| Opt (r : regex)                                 (* (?:r)? *)
| Grp (n : nat) (r : regex)                       (* capture group n *)
| Eos.                                            (* $ *)

(** Captured groups: the latest binding of a group number comes first. *)
Definition caps := list (nat * str).

Fixpoint group (n : nat) (cs : caps) : option str :=
  match cs with
  | [] => None
  | (m, v) :: cs' => if Nat.eqb m n then Some v else group n cs'
  end.

Section Matcher.
Variable A : Type.

(** [p{min,}], longest first. *)
Fixpoint rep_greedy (p : ascii -> bool) (min : nat) (s : str)
         (k : str -> option A) {struct s} : option A :=
  match s with
  | c :: s' =>
      if p c then
        match rep_greedy p (pred min) s' k with
        | Some r => Some r
        | None => match min with O => k s | S _ => None end
        end
      else match min with O => k s | S _ => None end
  | [] => match min with O => k s | S _ => None end
  end.

(** [p{min,}?], shortest first. *)
Fixpoint rep_lazy (p : ascii -> bool) (min : nat) (s : str)
         (k : str -> option A) {struct s} : option A :=
  match min with
  | O =>
      match k s with
      | Some r => Some r
      | None =>
          match s with
          | c :: s' => if p c then rep_lazy p 0 s' k else None
          | [] => None
          end
      end
  | S m =>
      match s with
      | c :: s' => if p c then rep_lazy p m s' k else None
      | [] => None
      end
  end.
End Matcher.

(** [exec r s cs k]: match [r] at the front of [s] with the groups [cs]
    bound so far, then continue with [k] on the rest; on failure of [k] the
    next way to match [r] is tried. *)
Fixpoint exec (r : regex) (s : str) (cs : caps)
         (k : str -> caps -> option caps) {struct r} : option caps :=
  match r with
  | Chr c =>
      match s with
      | x :: s' => if Ascii.eqb x c then k s' cs else None
      | [] => None
      end
  | Lit l => if starts_with l s then k (skipn (length l) s) cs else None
  | Cls p =>
      match s with
      | x :: s' => if p x then k s' cs else None
      | [] => None
      end
  | Rep p min true => rep_greedy p min s (fun s' => k s' cs)
  | Rep p min false => rep_lazy p min s (fun s' => k s' cs)
  | Cat r1 r2 => exec r1 s cs (fun s' cs' => exec r2 s' cs' k)
  | Alt r1 r2 =>
      match exec r1 s cs k with
      | Some m => Some m
      | None => exec r2 s cs k
      end
  | Opt r1 =>
      match exec r1 s cs k with
      | Some m => Some m
      | None => k s cs
      end
  | Grp n r1 =>
      exec r1 s cs
           (fun s' cs' => k s' ((n, firstn (length s - length s') s) :: cs'))
  | Eos =>
      (* end of the string, or just before a newline that ends it *)
      match s with
      | [] => k s cs
      | [c] => if N.eqb (code c) 10 then k s cs else None
      | _ => None
      end
  end.

(** [pattern.match(s)]: [None], or the groups of the match. *)
Definition re_match (r : regex) (s : str) : option caps :=
  exec r s [] (fun _ cs => Some cs).

Definition matches (r : regex) (s : str) : bool :=
  match re_match r s with Some _ => true | None => false end.

Fixpoint cat (rs : list regex) : regex :=
  match rs with
  | [] => Lit []
  | [r] => r
  | r :: rs' => Cat r (cat rs')
  end.

(** ** The patterns of [parse_checklist] *)

(** [^#([A-Z][A-Z0-9 ]+)$] *)
Definition section_pattern : regex :=
  cat [Chr "#"; Grp 1 (Cat (Cls is_upper) (Rep is_upper_digit_space 1 true)); Eos].

(** [^##([A-Z].+)$] *)
Definition subsection_pattern : regex :=
  cat [Lit (L "##"); Grp 1 (Cat (Cls is_upper) (Rep not_newline 1 true)); Eos].

(** [^###(.+)$] *)
Definition checklist_pattern : regex :=
  cat [Lit (L "###"); Grp 1 (Rep not_newline 1 true); Eos].

(** The action part of [item_pattern]: [\.\.\.\s*(.+)] *)
Definition item_action : regex :=
  cat [Lit (L "..."); Rep is_space 0 true; Grp 6 (Rep not_newline 1 true)].

(** [^(\s* )(?:(\d+)\.|\((\d+)\)|([a-z])\.)\s+(.+?)(?:\.\.\.\s*(.+))?$]
    (the source has no blank inside the first group). *)
Definition item_pattern : regex :=
  cat [Grp 1 (Rep is_space 0 true);
       Alt (Cat (Grp 2 (Rep is_digit 1 true)) (Chr "."))
           (Alt (cat [Chr "("; Grp 3 (Rep is_digit 1 true); Chr ")"])
                (Cat (Grp 4 (Cls is_lower)) (Chr ".")));
       Rep is_space 1 true;
       Grp 5 (Rep not_newline 1 false);
       Opt item_action;
       Eos].

(** [^([A-Z][A-Z0-9 ]+)(?:\s+Caution|Advisory)?$] *)
Definition cas_message_line_pattern : regex :=
  cat [Grp 1 (Cat (Cls is_upper) (Rep is_upper_digit_space 1 true));
       Opt (Alt (Cat (Rep is_space 1 true) (Lit (L "Caution")))
                (Lit (L "Advisory")));
       Eos].

(** [^PFD Alerts Window: [q]([^q]+)[q]$] where q is the double quote (each
    class is written with the quote doubled in the source). *)
Definition pfd_alert_pattern : regex :=
  cat [Lit (L "PFD Alerts Window: "); Cls is_dquote;
       Grp 1 (Rep not_dquote 1 true); Cls is_dquote; Eos].

(** ** Data model *)

Inductive ChecklistStep : Type := mkStep {
  instruction : str;
  action : str;
  is_conditional : bool;
  indent_level : Z;
  step_number : option str;
  sub_steps : list ChecklistStep
}.

Record Checklist : Type := mkChecklist {
  title : str;
  section : str;
  subsection : option str;
  cas : option str;
  cas_type : option str;
  cas_description : option str;
  alert_message : option str;
  steps : list ChecklistStep
}.

Definition set_sub_steps (s : ChecklistStep) (subs : list ChecklistStep) : ChecklistStep :=
  mkStep (instruction s) (action s) (is_conditional s) (indent_level s)
         (step_number s) subs.

Definition set_steps (c : Checklist) (l : list ChecklistStep) : Checklist :=
  mkChecklist (title c) (section c) (subsection c) (cas c) (cas_type c)
              (cas_description c) (alert_message c) l.

Definition set_alert_message (c : Checklist) (a : option str) : Checklist :=
  mkChecklist (title c) (section c) (subsection c) (cas c) (cas_type c)
              (cas_description c) a (steps c).

Definition set_cas (c : Checklist) (n t : option str) : Checklist :=
  mkChecklist (title c) (section c) (subsection c) n t
              (cas_description c) (alert_message c) (steps c).

(** ** Hierarchy builder *)

(** [for i in range(len(l) - 1, -1, -1): if f(l[i]): return True]: the
    elements are tried from the last to the first; the first one [f] accepts
    is replaced by what [f] made of it (the source mutates it in place). *)
Fixpoint try_last_first (A : Type) (f : A -> option A) (l : list A) : option (list A) :=
  match l with
  | [] => None
  | x :: l' =>
      match try_last_first f l' with
      | Some l'' => Some (x :: l'')
      | None =>
          match f x with
          | Some x' => Some (x' :: l')
          | None => None
          end
      end
  end.

(** [Some p'] when the source returns [True] and has turned
    [potential_parent] into [p']; [None] when it returns [False]. *)
Fixpoint find_parent_and_add_step (potential_parent new_step : ChecklistStep)
         (target_indent : Z) {struct potential_parent} : option ChecklistStep :=
  match potential_parent with
  | mkStep ins act cond lvl num subs =>
      if (lvl =? target_indent - 1)%Z
      then Some (mkStep ins act cond lvl num (subs ++ [new_step]))
      else
        match try_last_first
                (fun sub => find_parent_and_add_step sub new_step target_indent)
                subs with
        | Some subs' => Some (mkStep ins act cond lvl num subs')
        | None => None
        end
  end.

Definition add_step_to_hierarchy (checklist : Checklist) (new_step : ChecklistStep)
           (indent_level : Z) : Checklist :=
  if (indent_level =? 0)%Z then set_steps checklist (steps checklist ++ [new_step])
  else
    match steps checklist with
    | [] => set_steps checklist (steps checklist ++ [new_step])
    | _ :: _ =>
        match try_last_first
                (fun s => find_parent_and_add_step s new_step indent_level)
                (steps checklist) with
        | Some steps' => set_steps checklist steps'
        | None => set_steps checklist (steps checklist ++ [new_step])
        end
    end.

(** ** Validator *)

(** [step.sub_steps and any(sub.indent_level <= step.indent_level ...)] *)
Definition inconsistent_indentation (step : ChecklistStep) : bool :=
  existsb (fun sub => (indent_level sub <=? indent_level step)%Z) (sub_steps step).

Definition b2n (b : bool) : nat := if b then 1 else 0.

(** The number of issues [validate_steps] returns.  The title is only used
    in the log messages. *)
Fixpoint validate_step (step : ChecklistStep) : nat :=
  match step with
  | mkStep ins act cond lvl num subs =>
      b2n (negb (truthy ins))
      + b2n (existsb (fun sub => (indent_level sub <=? lvl)%Z) subs)
      + fold_right (fun sub n => validate_step sub + n) 0 subs
  end.

Definition validate_steps (steps : list ChecklistStep) (checklist_title : str) : nat :=
  fold_right (fun step n => validate_step step + n) 0 steps.

(** The number of issues [validate_checklists] counts. *)
Definition validate_checklists (checklists : list Checklist) : nat :=
  fold_right
    (fun c n =>
       b2n (negb (truthy (title c))) + b2n (negb (truthy (section c)))
       + b2n (match steps c with [] => true | _ => false end)
       + validate_steps (steps c) (title c) + n)
    0 checklists.

(** ** The scan loop of [parse_checklist] *)

(** The local variables of [parse_checklist] that the loop reads and writes. *)
Record State : Type := mkState {
  checklists : list Checklist;
  current_checklist : option Checklist;
  current_section : option str;
  current_subsection : option str;
  pending_cas : option str;
  pending_cas_type : option str;
  pending_cas_description : option str;
  pending_pfd_alert : option str;
  line_count : nat;
  i : nat
}.

Definition init_state : State :=
  mkState [] None None None None None None None 0 0.

(** An [Optional[str]] read where the source knows it is a [str]. *)
Definition ostr (o : option str) : str :=
  match o with Some v => v | None => [] end.

(** [m.group(n)] where the source calls a [str] method on it. *)
Definition group_str (n : nat) (m : caps) : str := ostr (group n m).

(** The six patterns that end a step's continuation lines. *)
Definition starts_new_pattern (next_line : str) : bool :=
  matches section_pattern next_line
  || matches subsection_pattern next_line
  || matches checklist_pattern next_line
  || matches item_pattern next_line
  || matches cas_message_line_pattern next_line
  || matches pfd_alert_pattern next_line.

Definition ellipsis : str := L "...".
Definition space : str := L " ".

(** What the lookahead loop leaves in [j], [i], [instruction], [action]. *)
Record Merged : Type := mkMerged {
  m_j : nat;
  m_i : nat;
  m_instruction : str;
  m_action : str
}.

(** The body of the lookahead loop for one continuation line. *)
Definition merge_line (next_line instruction action : str) : str * str :=
  if contains ellipsis next_line then
    let parts := split ellipsis next_line in
    if 1 <? length parts then
      let instruction' :=
        if truthy instruction && negb (contains ellipsis instruction)
        then instruction ++ space ++ strip (nth 0 parts [])
        else instruction in
      let action' :=
        if truthy action
        then action ++ space ++ strip (nth 1 parts [])
        else strip (nth 1 parts []) in
      (instruction', action')
    else (instruction, action)
  else (instruction ++ space ++ strip next_line, action).

(** [while j < len(lines): ...], with [rest] the lines from index [j] on. *)
Fixpoint merge_continuations (rest : list str) (j i : nat)
         (instruction action : str) : Merged :=
  match rest with
  | [] => mkMerged j i instruction action
  | l :: rest' =>
      let next_line := rstrip l in
      if negb (truthy next_line)
      then merge_continuations rest' (S j) i instruction action
      else if starts_new_pattern next_line
      then mkMerged j i instruction action
      else
        let '(instruction', action') := merge_line next_line instruction action in
        merge_continuations rest' (S j) (S i) instruction' action'
  end.

(** [instruction.lower().startswith(('if', 'when', 'verify'))] *)
Definition conditional (instruction : str) : bool :=
  let low := map lower instruction in
  starts_with (L "if") low || starts_with (L "when") low
  || starts_with (L "verify") low.

(** The step number and the indent level fixed by the numbering form. *)
Definition numbering (num1 num2 letter : option str) (indent_level : Z)
  : option str * Z :=
  if otruthy num1 then (num1, 0%Z)
  else if otruthy num2 then (Some (L "(" ++ ostr num2 ++ L ")"), 2%Z)
  else if otruthy letter then (letter, 1%Z)
  else (None, indent_level).

(** The step branch up to the construction of [new_step]: the new value of
    [i] and the step.  [i] is the index of the line after the step line. *)
Definition make_step (lines : list str) (i : nat) (step_match : caps)
  : nat * ChecklistStep :=
  let indent := group 1 step_match in
  let num1 := group 2 step_match in
  let num2 := group 3 step_match in
  let letter := group 4 step_match in
  let content := group_str 5 step_match in
  let action := group 6 step_match in
  let indent_level :=
    (if otruthy indent then Z.of_nat (length (ostr indent)) / 2 else 0)%Z in
  let instruction := strip content in
  let action := if otruthy action then strip (ostr action) else [] in
  let mg := merge_continuations (skipn i lines) i i instruction action in
  let action := if truthy (m_action mg)
                then strip (sub_dots (m_action mg)) else m_action mg in
  let is_conditional := conditional (m_instruction mg) in
  let '(step_number, indent_level) := numbering num1 num2 letter indent_level in
  (m_i mg,
   mkStep (m_instruction mg) action is_conditional indent_level step_number []).

(** [line_count += 1; i += 1] *)
Definition advance (st : State) : State :=
  mkState (checklists st) (current_checklist st) (current_section st)
          (current_subsection st) (pending_cas st) (pending_cas_type st)
          (pending_cas_description st) (pending_pfd_alert st)
          (S (line_count st)) (S (i st)).

Definition on_section (st : State) (section_match : caps) : State :=
  mkState (checklists st) (current_checklist st) (group 1 section_match)
          (current_subsection st) (pending_cas st) (pending_cas_type st)
          (pending_cas_description st) (pending_pfd_alert st)
          (line_count st) (i st).

Definition on_subsection (st : State) (subsection_match : caps) : State :=
  mkState (checklists st) (current_checklist st) (current_section st)
          (group 1 subsection_match) (pending_cas st) (pending_cas_type st)
          (pending_cas_description st) (pending_pfd_alert st)
          (line_count st) (i st).

(** [checklist.steps] as a condition. *)
Definition has_steps (c : Checklist) : bool :=
  match steps c with [] => false | _ :: _ => true end.

(** [if current_checklist and current_checklist.steps:
       checklists.append(current_checklist)] *)
Definition append_current (st : State) : list Checklist :=
  match current_checklist st with
  | Some c => if has_steps c then checklists st ++ [c] else checklists st
  | None => checklists st
  end.

Definition on_title (st : State) (checklist_match : caps) : State :=
  let new_checklist :=
    mkChecklist (strip (group_str 1 checklist_match))
                (ostr (current_section st))          (* current_section or the empty string *)
                (current_subsection st)
                (pending_cas st) (pending_cas_type st)
                (pending_cas_description st) (pending_pfd_alert st) [] in
  if otruthy (pending_cas st) || otruthy (pending_pfd_alert st)
  then mkState (append_current st) (Some new_checklist) (current_section st)
               (current_subsection st) None None None None
               (line_count st) (i st)
  else mkState (append_current st) (Some new_checklist) (current_section st)
               (current_subsection st) (pending_cas st) (pending_cas_type st)
               (pending_cas_description st) (pending_pfd_alert st)
               (line_count st) (i st).

Definition on_pfd (st : State) (pfd_alert_match : caps) : State :=
  let alert := Some (strip (group_str 1 pfd_alert_match)) in
  match current_checklist st with
  | Some c =>
      mkState (checklists st) (Some (set_alert_message c alert))
              (current_section st) (current_subsection st) (pending_cas st)
              (pending_cas_type st) (pending_cas_description st) None
              (line_count st) (i st)
  | None =>
      mkState (checklists st) None
              (current_section st) (current_subsection st) (pending_cas st)
              (pending_cas_type st) (pending_cas_description st) alert
              (line_count st) (i st)
  end.

Definition Caution : str := L "Caution".
Definition Advisory : str := L "Advisory".

(** The CAS type and the scan position after the qualifier test and the
    one-line lookahead. *)
Definition cas_lookahead (lines : list str) (st : State) (line name : str)
  : option str * nat :=
  if contains Caution line then (Some Caution, i st)
  else if contains Advisory line then (Some Advisory, i st)
  else if i st <? length lines then
    let next_line := strip (nth (i st) lines []) in
    if str_eqb next_line name then (pending_cas_type st, S (i st))
    else if contains Caution next_line then (Some Caution, S (i st))
    else if contains Advisory next_line then (Some Advisory, S (i st))
    else (pending_cas_type st, i st)
  else (pending_cas_type st, i st).

Definition on_cas (lines : list str) (st : State) (line : str) (cas_match : caps)
  : State :=
  let name := strip (group_str 1 cas_match) in
  let '(type, i') := cas_lookahead lines st line name in
  match current_checklist st with
  | Some c =>
      mkState (checklists st) (Some (set_cas c (Some name) type))
              (current_section st) (current_subsection st) None None
              (pending_cas_description st) (pending_pfd_alert st)
              (line_count st) i'
  | None =>
      mkState (checklists st) None
              (current_section st) (current_subsection st) (Some name) type
              (pending_cas_description st) (pending_pfd_alert st)
              (line_count st) i'
  end.

(** [add_step_to_hierarchy] receives the local [indent_level], which is the
    value just stored in the step. *)
Definition on_step (lines : list str) (st : State) (step_match : caps)
           (c : Checklist) : State :=
  let '(i', new_step) := make_step lines (i st) step_match in
  mkState (checklists st)
          (Some (add_step_to_hierarchy c new_step (indent_level new_step)))
          (current_section st) (current_subsection st) (pending_cas st)
          (pending_cas_type st) (pending_cas_description st)
          (pending_pfd_alert st) (line_count st) i'.

Definition is_some (A : Type) (o : option A) : bool :=
  match o with Some _ => true | None => false end.

(** The branch of the loop body a line is handled by, with the match object
    the branch uses. *)
Inductive Token : Type :=
| Blank
| SectionHeader (section_match : caps)
| SubsectionHeader (subsection_match : caps)
| ChecklistTitle (checklist_match : caps)
| PfdAlert (pfd_alert_match : caps)
| CasMessage (cas_match : caps)
| StepItem (step_match : caps) (current : Checklist)
| Other.

(** [step_match and current_checklist] *)
Definition classify_step (current : option Checklist) (line : str) : Token :=
  match re_match item_pattern line, current with
  | Some step_match, Some c => StepItem step_match c
  | _, _ => Other
  end.

(** The conditions of the loop body, in the order the source tests them;
    [line] is the stripped line. *)
Definition classify (current : option Checklist) (line : str) : Token :=
  if negb (truthy line) then Blank else
  match re_match section_pattern line with
  | Some m => SectionHeader m
  | None =>
  match re_match subsection_pattern line with
  | Some m => SubsectionHeader m
  | None =>
  match re_match checklist_pattern line with
  | Some m => ChecklistTitle m
  | None =>
  match re_match pfd_alert_pattern line with
  | Some m => PfdAlert m
  | None =>
  match re_match cas_message_line_pattern line with
  | Some m =>
      (* cas_match and (not current_checklist or not item_pattern.match(line)) *)
      if negb (is_some current) || negb (matches item_pattern line)
      then CasMessage m
      else classify_step current line
  | None => classify_step current line
  end end end end end.

(** [lines[i].rstrip()] *)
Definition line_at (lines : list str) (i : nat) : str := rstrip (nth i lines []).

(** One iteration of [while i < len(lines)], entered with [i < len(lines)].
    Nothing in the body raises, so the [except] clause is never entered. *)
Definition loop_body (lines : list str) (st0 : State) : State :=
  let line := line_at lines (i st0) in
  let st := advance st0 in
  match classify (current_checklist st) line with
  | Blank => st
  | SectionHeader m => on_section st m
  | SubsectionHeader m => on_subsection st m
  | ChecklistTitle m => on_title st m
  | PfdAlert m => on_pfd st m
  | CasMessage m => on_cas lines st line m
  | StepItem m c => on_step lines st m c
  | Other => st
  end.

(** The loop; [fuel] bounds the number of iterations. *)
Fixpoint scan (fuel : nat) (lines : list str) (st : State) : State :=
  match fuel with
  | O => st
  | S fuel' =>
      if i st <? length lines then scan fuel' lines (loop_body lines st) else st
  end.

(** The list of checklists [parse_checklist] validates and serialises: every
    iteration advances [i], so [len(lines)] iterations are enough. *)
Definition parse_checklist (lines : list str) : list Checklist :=
  append_current (scan (length lines) lines init_state).


(** ** Notions used to state the properties *)

(** A step and every step below it. *)
Fixpoint step_and_below (s : ChecklistStep) : list ChecklistStep :=
  match s with
  | mkStep _ _ _ _ _ subs => s :: flat_map step_and_below subs
  end.

(** Every step reachable in a step tree. *)
Definition all_steps (l : list ChecklistStep) : list ChecklistStep :=
  flat_map step_and_below l.

(** Each child is exactly one level below its parent, at every depth. *)
Fixpoint hierarchy_ok (s : ChecklistStep) : bool :=
  match s with
  | mkStep _ _ _ lvl _ subs =>
      forallb (fun sub => (indent_level sub =? lvl + 1)%Z && hierarchy_ok sub) subs
  end.

Definition steps_ok (c : Checklist) : Prop :=
  Forall (fun s => hierarchy_ok s = true) (steps c).

(** The states the loop is in at the start of an iteration or at its exit. *)
Inductive Reachable (lines : list str) : State -> Prop :=
| reach_init : Reachable lines init_state
| reach_step st :
    Reachable lines st -> i st < length lines ->
    Reachable lines (loop_body lines st).

(** A property of every checklist the scan holds: those already closed and
    the open one. *)
Definition every_checklist (P : Checklist -> Prop) (st : State) : Prop :=
  Forall P (checklists st) /\
  forall c, current_checklist st = Some c -> P c.


(** The branch the iteration entered in state [st] takes. *)
Definition token_at (lines : list str) (st : State) : Token :=
  classify (current_checklist st) (line_at lines (i st)).

Definition is_subsection_header (t : Token) : bool :=
  match t with SubsectionHeader _ => true | _ => false end.

Definition is_cas_message (t : Token) : bool :=
  match t with CasMessage _ => true | _ => false end.

Definition is_step_item (t : Token) : bool :=
  match t with StepItem _ _ => true | _ => false end.

Definition is_checklist_title (t : Token) : bool :=
  match t with ChecklistTitle _ => true | _ => false end.

(** None of the first [n] iterations from [st] handles a token of the kind
    [bad]. *)
Definition no_token (bad : Token -> bool) (lines : list str) (st : State)
           (n : nat) : Prop :=
  forall k, k < n -> bad (token_at lines (scan k lines st)) = false.

Definition opt_list (A : Type) (o : option A) : list A :=
  match o with Some x => [x] | None => [] end.

(** The checklists the scan closes, in order: the open checklist of every
    state in which a title is handled next, and the one open when the loop
    ends. *)
Fixpoint closed_by (fuel : nat) (lines : list str) (st : State) : list Checklist :=
  match fuel with
  | O => opt_list (current_checklist st)
  | S fuel' =>
      if i st <? length lines then
        (if is_checklist_title (token_at lines st)
         then opt_list (current_checklist st) else [])
        ++ closed_by fuel' lines (loop_body lines st)
      else opt_list (current_checklist st)
  end.

Definition closed_checklists (lines : list str) : list Checklist :=
  closed_by (length lines) lines init_state.

(** What a match of [r] at the front of [s] is, whatever the order in which
    the matcher finds it: [s'] is the rest of the string and [cs'] the groups
    after the match. *)
Fixpoint Match (r : regex) (s : str) (cs : caps) (s' : str) (cs' : caps) : Prop :=
  match r with
  | Chr c => s = c :: s' /\ cs' = cs
  | Lit l => s = l ++ s' /\ cs' = cs
  | Cls p => exists x, p x = true /\ s = x :: s' /\ cs' = cs
  | Rep p min _ =>
      exists w, forallb p w = true /\ min <= length w /\ s = w ++ s' /\ cs' = cs
  | Cat r1 r2 =>
      exists s1 cs1, Match r1 s cs s1 cs1 /\ Match r2 s1 cs1 s' cs'
  | Alt r1 r2 => Match r1 s cs s' cs' \/ Match r2 s cs s' cs'
  | Opt r1 => Match r1 s cs s' cs' \/ (s' = s /\ cs' = cs)
  | Grp n r1 =>
      exists w cs1, Match r1 s cs s' cs1 /\ s = w ++ s' /\ cs' = (n, w) :: cs1
  | Eos => s' = s /\ cs' = cs /\ (s = [] \/ s = [chr 10])
  end.

(** A checklist is open and has no step. *)
Definition open_without_steps (st : State) : Prop :=
  exists c, current_checklist st = Some c /\ steps c = [].


(** What the scan keeps true of the pending CAS cells: a pending name is not
    empty, and there is no pending type without a pending name. *)
Definition pending_cas_ok (st : State) : Prop :=
  pending_cas st <> Some [] /\
  (pending_cas st = None -> pending_cas_type st = None).

(** The three numbering forms of a step line, and the level of each. *)
Inductive NumberingForm : Type :=
| PlainDigits
| LowercaseLetter
| ParenthesizedDigits.

Definition form_level (f : NumberingForm) : Z :=
  match f with
  | PlainDigits => 0
  | LowercaseLetter => 1
  | ParenthesizedDigits => 2
  end.

(** The form a line is numbered in: decided by the first character after the
    leading whitespace. *)
Definition numbering_form (line : str) : option NumberingForm :=
  match lstrip line with
  | c :: _ =>
      if is_digit c then Some PlainDigits
      else if is_lower c then Some LowercaseLetter
      else if Ascii.eqb c "(" then Some ParenthesizedDigits
      else None
  | [] => None
  end.

(** The parts of a line [N. text ... ACTION]: [N] is a number, [text] starts
    with a character that is not white space, [ACTION] ends with a character
    that is neither white space nor a dot, and neither contains a newline. *)
Definition well_formed_step_line (N text act : str) : bool :=
  truthy N && forallb is_digit N
  && match text with t :: _ => negb (is_space t) | [] => false end
  && forallb not_newline text
  && forallb not_newline act
  && match rev act with
     | z :: _ => negb (is_space z) && negb (is_dot z)
     | [] => false
     end.

Definition step_line (N text act : str) : str :=
  N ++ L ". " ++ text ++ L " ... " ++ act.

Definition no_dot (s : str) : bool := forallb (fun c => negb (is_dot c)) s.

(** A step without its instruction, as [validate_steps] tests it. *)
Definition missing_instruction (step : ChecklistStep) : bool :=
  negb (truthy (instruction step)).

Definition count_where (A : Type) (f : A -> bool) (l : list A) : nat :=
  length (filter f l).

(** ** Sample inputs *)

(** What [readlines] returns for a file with the given lines: each ends with
    a newline. *)
Definition file_lines (l : list string) : list str :=
  map (fun s => L s ++ [chr 10]) l.

(** The example of the specification, and what it is parsed into. *)
Definition engine_fire_lines : list str :=
  file_lines ["#EMERGENCY"; "###ENGINE FIRE"; "1. Fuel Selector ... OFF";
              "a. Mixture ... IDLE CUTOFF"]%string.

Definition mixture_step : ChecklistStep :=
  mkStep (L "Mixture") (L "IDLE CUTOFF") false 1 (Some (L "a")) [].

Definition fuel_selector_step : ChecklistStep :=
  mkStep (L "Fuel Selector") (L "OFF") false 0 (Some (L "1")) [mixture_step].

Definition engine_fire_checklist : Checklist :=
  mkChecklist (L "ENGINE FIRE") (L "EMERGENCY") None None None None None
              [fuel_selector_step].

(** The checklist of the example when its title has just been read. *)
Definition engine_fire_opened : Checklist :=
  mkChecklist (L "ENGINE FIRE") (L "EMERGENCY") None None None None None [].

(** A step, a blank line, and a line that continues the step. *)
Definition blank_then_continuation_lines : list str :=
  file_lines ["###T"; "1. A ... B"; ""; "more"]%string.

(** A CAS line with its qualifier, then the name once more. *)
Definition qualified_cas_repeated_lines : list str :=
  file_lines ["###T"; "1. Do ... X"; "OIL PRESS Caution"; "OIL PRESS"]%string.

(** A CAS line ahead of the first of two checklists. *)
Definition cas_then_two_checklists_lines : list str :=
  file_lines ["OIL PRESS Caution"; "###A"; "1. x ... Y"; "###B";
              "1. z ... W"]%string.

(** A PFD alert whose quoted text is one blank, ahead of two checklists. *)
Definition blank_pfd_alert_lines : list str :=
  (L "PFD Alerts Window: " ++ [chr 34; chr 32; chr 34; chr 10])
    :: file_lines ["###A"; "1. x ... Y"; "###B"; "1. z ... W"]%string.

(** A subsection, then a new section, then a checklist. *)
Definition section_after_subsection_lines : list str :=
  file_lines ["#NORMAL"; "##Preflight"; "#EMERGENCY"; "###ENGINE FIRE";
              "1. Fuel Selector ... OFF"]%string.

(** A level-0 step holding a level-2 step. *)
Definition step_with_deeper_child : ChecklistStep :=
  mkStep (L "Fuel Selector") (L "OFF") false 0 (Some (L "1"))
         [mkStep (L "Mixture") (L "IDLE CUTOFF") false 2 (Some (L "(1)")) []].

(** ** Notions used to state further properties *)

(** The number of lines the title pattern matches once stripped. *)
Definition title_lines (lines : list str) : nat :=
  count_where (fun l => matches checklist_pattern (rstrip l)) lines.

(** How many of the six line patterns match a line. *)
Definition patterns_matching (line : str) : nat :=
  b2n (matches section_pattern line) + b2n (matches subsection_pattern line)
  + b2n (matches checklist_pattern line) + b2n (matches pfd_alert_pattern line)
  + b2n (matches cas_message_line_pattern line) + b2n (matches item_pattern line).

(** The fields of a step other than its sub-steps. *)
Definition step_fields (s : ChecklistStep)
  : str * str * bool * Z * option str :=
  (instruction s, action s, is_conditional s, indent_level s, step_number s).

(** A step of the level just above [target_indent]: what
    [find_parent_and_add_step] looks for. *)
Definition candidate_parent (target_indent : Z) (s : ChecklistStep) : bool :=
  (indent_level s =? target_indent - 1)%Z.

(** The number and the level of a step agree with one of the three numbering
    forms. *)
Definition numbered_by_form (s : ChecklistStep) : Prop :=
  (exists N, N <> [] /\ forallb is_digit N = true /\
             step_number s = Some N /\ indent_level s = 0%Z) \/
  (exists c, is_lower c = true /\
             step_number s = Some [c] /\ indent_level s = 1%Z) \/
  (exists N, N <> [] /\ forallb is_digit N = true /\
             step_number s = Some (L "(" ++ N ++ L ")") /\ indent_level s = 2%Z).

(** The CAS fields a checklist can have. *)
Definition cas_fields_ok (c : Checklist) : Prop :=
  cas c <> Some [] /\
  (cas c = None -> cas_type c = None) /\
  (cas_type c = None \/ cas_type c = Some Caution \/ cas_type c = Some Advisory).


(** [after] lists, in document order (a step, then the steps below it), the
    steps of a forest [before] plus the tree [new_step], which has been put
    right after the sub-steps of a step one level shallower than the target
    that no such step follows. *)
Definition inserted_after_last_candidate (target_indent : Z)
           (new_step : ChecklistStep) (before after : list ChecklistStep) : Prop :=
  exists front parent rest,
    before = front ++ parent :: all_steps (sub_steps parent) ++ rest /\
    candidate_parent target_indent parent = true /\
    Forall (fun s => candidate_parent target_indent s = false) rest /\
    map step_fields after =
      map step_fields (front ++ parent :: all_steps (sub_steps parent))
      ++ map step_fields (step_and_below new_step)
      ++ map step_fields rest.

(** The number of levels of a step tree. *)
Fixpoint height (s : ChecklistStep) : nat :=
  match s with
  | mkStep _ _ _ _ _ subs =>
      S (fold_right (fun sub n => Nat.max (height sub) n) 0 subs)
  end.

(** What holds of every step the parser builds. *)
Definition step_built_ok (s : ChecklistStep) : Prop :=
  numbered_by_form s /\ no_dot (action s) = true /\
  is_conditional s = conditional (instruction s).

(** The type a pending CAS can have. *)
Definition cas_type_ok (t : option str) : Prop :=
  t = None \/ t = Some Caution \/ t = Some Advisory.

(** ** More sample values *)

(** The checklist open after the first three lines of
    [cas_then_two_checklists_lines]. *)
Definition checklist_a_with_cas : Checklist :=
  mkChecklist (L "A") [] None (Some (L "OIL PRESS")) (Some Caution) None None
              [mkStep (L "x") (L "Y") false 0 (Some (L "1")) []].

(** A continuation line and the step line that ends it. *)
Definition continuation_then_step_lines : list str :=
  file_lines ["and more"; "2. Next ... ON"]%string.
(** * Properties *)

(** ** Steps as trees *)

(** Induction on a step with the hypothesis for every sub-step. *)
Lemma ChecklistStep_tree_ind (P : ChecklistStep -> Prop) :
  (forall ins act cond lvl num subs,
      Forall P subs -> P (mkStep ins act cond lvl num subs)) ->
  forall s, P s.
Proof.
  intros IH.
  fix self 1.
  intros [ins act cond lvl num subs].
  apply IH.
  induction subs as [|x subs IHsubs]; constructor.
  - apply self.
  - exact IHsubs.
Qed.

Lemma step_and_below_eq s :
  step_and_below s = s :: all_steps (sub_steps s).
Proof. destruct s; reflexivity. Qed.

Lemma hierarchy_ok_eq s :
  hierarchy_ok s =
  forallb (fun sub => (indent_level sub =? indent_level s + 1)%Z && hierarchy_ok sub)
          (sub_steps s).
Proof. destruct s; reflexivity. Qed.

Lemma hierarchy_ok_below s :
  hierarchy_ok s = true ->
  forall p, In p (step_and_below s) ->
  forall child, In child (sub_steps p) ->
  indent_level child = (indent_level p + 1)%Z.
Proof.
  induction s as [ins act cond lvl num subs IH] using ChecklistStep_tree_ind.
  intros Hok p Hp child Hchild.
  rewrite hierarchy_ok_eq in Hok. cbn [sub_steps indent_level] in Hok.
  rewrite forallb_forall in Hok.
  rewrite step_and_below_eq in Hp. cbn [sub_steps] in Hp.
  destruct Hp as [<- | Hp].
  - cbn [sub_steps indent_level] in *.
    apply Hok in Hchild. apply andb_prop in Hchild as [Hc _].
    now apply Z.eqb_eq in Hc.
  - unfold all_steps in Hp. apply in_flat_map in Hp as [x [Hx Hpx]].
    rewrite Forall_forall in IH.
    apply (IH x Hx); auto.
    apply Hok in Hx. now apply andb_prop in Hx as [_ Hx].
Qed.

Section TryLastFirst.
Variable A : Type.
Variable f : A -> option A.

(** A successful search rewrites exactly one element. *)
Lemma try_last_first_some l l' :
  try_last_first f l = Some l' ->
  exists pre x x' post,
    l = pre ++ x :: post /\ l' = pre ++ x' :: post /\ f x = Some x'.
Proof.
  revert l'. induction l as [|a l IH]; intros l' H; cbn in H; [discriminate|].
  destruct (try_last_first f l) as [l''|] eqn:E.
  - injection H as <-.
    destruct (IH _ eq_refl) as (pre & x & x' & post & -> & -> & Hf).
    now exists (a :: pre), x, x', post.
  - destruct (f a) as [a'|] eqn:Ea; [|discriminate].
    injection H as <-. now exists [], a, a', l.
Qed.

Lemma try_last_first_Forall (Q : A -> Prop) l l' :
  Forall (fun x => forall x', f x = Some x' -> Q x') l ->
  Forall Q l ->
  try_last_first f l = Some l' ->
  Forall Q l'.
Proof.
  intros Hf HQ H.
  destruct (try_last_first_some _ H) as (pre & x & x' & post & -> & -> & Hx).
  rewrite Forall_app in *. destruct HQ as [Hpre Hpost], Hf as [_ Hf].
  inversion Hpost; subst. inversion Hf; subst.
  split; [assumption|]. constructor; auto.
Qed.

Lemma try_last_first_not_nil l l' :
  try_last_first f l = Some l' -> l' <> [].
Proof.
  intros H. destruct (try_last_first_some _ H) as (pre & x & x' & post & _ & -> & _).
  now destruct pre.
Qed.
End TryLastFirst.

(** The search keeps the level of the step it is run on, and keeps the tree
    below it well formed when the new step is a leaf of the target level. *)
Lemma find_parent_and_add_step_ok new_step target :
  indent_level new_step = target ->
  hierarchy_ok new_step = true ->
  forall p p',
    find_parent_and_add_step p new_step target = Some p' ->
    indent_level p' = indent_level p /\
    (hierarchy_ok p = true -> hierarchy_ok p' = true).
Proof.
  intros Hlvl Hnew.
  induction p as [ins act cond lvl num subs IH] using ChecklistStep_tree_ind.
  intros p' H. cbn [find_parent_and_add_step] in H.
  destruct (lvl =? target - 1)%Z eqn:E.
  - injection H as <-. split; [reflexivity|].
    cbn [hierarchy_ok]. intros Hok.
    rewrite forallb_app, Hok. cbn [forallb].
    rewrite Hnew, andb_true_r, andb_true_r.
    apply Z.eqb_eq in E. apply Z.eqb_eq. lia.
  - destruct (try_last_first _ subs) as [subs'|] eqn:Et; [|discriminate].
    injection H as <-. split; [reflexivity|].
    cbn [hierarchy_ok]. intros Hok.
    rewrite forallb_forall in Hok. rewrite forallb_forall.
    apply Forall_forall.
    eapply try_last_first_Forall; [| |exact Et].
    + rewrite Forall_forall in IH. apply Forall_forall.
      intros x Hx x' Hx'. destruct (IH x Hx x' Hx') as [Hl Hh].
      specialize (Hok x Hx). apply andb_prop in Hok as [Ha Hb].
      rewrite Hl, Ha. cbn. now apply Hh.
    + apply Forall_forall. exact Hok.
Qed.

Lemma add_step_to_hierarchy_ok c new_step :
  hierarchy_ok new_step = true ->
  steps_ok c ->
  steps_ok (add_step_to_hierarchy c new_step (indent_level new_step)).
Proof.
  intros Hnew Hc. unfold add_step_to_hierarchy, steps_ok in *.
  assert (Happ : Forall (fun s => hierarchy_ok s = true) (steps c ++ [new_step])).
  { apply Forall_app. split; [assumption|]. now constructor. }
  destruct (indent_level new_step =? 0)%Z; [exact Happ|].
  destruct (steps c) as [|s0 l] eqn:Es; [exact Happ|].
  destruct (try_last_first _ (s0 :: l)) as [steps'|] eqn:Et; [|exact Happ].
  cbn [steps set_steps].
  eapply try_last_first_Forall; [| exact Hc | exact Et].
  apply Forall_forall. intros x Hx x' Hx'.
  destruct (@find_parent_and_add_step_ok new_step (indent_level new_step) eq_refl Hnew x x' Hx') as [_ Hh].
  rewrite Forall_forall in Hc. auto.
Qed.

Lemma add_step_to_hierarchy_has_steps c new_step lvl :
  has_steps (add_step_to_hierarchy c new_step lvl) = true.
Proof.
  unfold add_step_to_hierarchy, has_steps.
  destruct (lvl =? 0)%Z; cbn [steps set_steps].
  - now destruct (steps c).
  - destruct (steps c) as [|s0 l] eqn:Es; [reflexivity|].
    destruct (try_last_first _ (s0 :: l)) as [steps'|] eqn:Et; cbn [steps set_steps].
    + apply try_last_first_not_nil in Et. now destruct steps'.
    + reflexivity.
Qed.

(** ** The matcher finds matches *)

Lemma starts_with_app l s :
  starts_with l s = true -> s = l ++ skipn (length l) s.
Proof.
  revert s. induction l as [|a l IH]; intros [|b s] H; cbn in *;
    try reflexivity; try discriminate.
  apply andb_prop in H as [Hab H]. apply Ascii.eqb_eq in Hab as ->.
  f_equal. now apply IH.
Qed.

Lemma starts_with_prefix l s : starts_with l (l ++ s) = true.
Proof.
  induction l as [|a l IH]; cbn; [reflexivity|].
  now rewrite Ascii.eqb_refl, IH.
Qed.

Lemma code_chr c : chr (code c) = c.
Proof. apply ascii_N_embedding. Qed.

Lemma code_eqb c n : N.eqb (code c) n = true -> c = chr n.
Proof. intros H. apply N.eqb_eq in H. now rewrite <- H, code_chr. Qed.

Section RepSound.
Variable A : Type.
Variable p : ascii -> bool.
Variable k : str -> option A.

Lemma rep_greedy_sound min s r :
  rep_greedy p min s k = Some r ->
  exists w s', s = w ++ s' /\ forallb p w = true /\ min <= length w /\
               k s' = Some r.
Proof.
  revert min. induction s as [|c s IH]; intros min H; cbn [rep_greedy] in H.
  - destruct min; [|discriminate]. now exists [], [].
  - assert (Hstop : match min with O => k (c :: s) | S _ => None end = Some r ->
                    exists w s', c :: s = w ++ s' /\ forallb p w = true /\
                                 min <= length w /\ k s' = Some r).
    { destruct min; [|discriminate]. intros Hk. now exists [], (c :: s). }
    destruct (p c) eqn:Ec; [|now apply Hstop].
    destruct (rep_greedy p (pred min) s k) as [r'|] eqn:Er; [|now apply Hstop].
    injection H as ->.
    destruct (IH _ Er) as (w & s' & -> & Hw & Hmin & Hk).
    exists (c :: w), s'. cbn. rewrite Ec, Hw. repeat split; auto; cbn [length]; lia.
Qed.

Lemma rep_lazy_sound min s r :
  rep_lazy p min s k = Some r ->
  exists w s', s = w ++ s' /\ forallb p w = true /\ min <= length w /\
               k s' = Some r.
Proof.
  revert min. induction s as [|c s IH]; intros min H.
  - destruct min; cbn in H; [|discriminate].
    destruct (k []) eqn:Ek; [|discriminate]. injection H as ->.
    now exists [], [].
  - destruct min as [|min]; cbn [rep_lazy] in H.
    + destruct (k (c :: s)) as [r'|] eqn:Ek.
      * injection H as ->. now exists [], (c :: s).
      * destruct (p c) eqn:Ec; [|discriminate].
        destruct (IH _ H) as (w & s' & -> & Hw & Hmin & Hk).
        exists (c :: w), s'. cbn. rewrite Ec, Hw. repeat split; auto; cbn [length]; lia.
    + destruct (p c) eqn:Ec; [|discriminate].
      destruct (IH _ H) as (w & s' & -> & Hw & Hmin & Hk).
      exists (c :: w), s'. cbn. rewrite Ec, Hw. repeat split; auto; cbn [length]; lia.
Qed.
End RepSound.

Lemma Match_suffix r : forall s cs s' cs',
  Match r s cs s' cs' -> exists w, s = w ++ s'.
Proof.
  induction r as [c|l|p|p min g|r1 IH1 r2 IH2|r1 IH1 r2 IH2|r1 IH1|n r1 IH1|];
    intros s cs s' cs' H; cbn [Match] in H.
  - destruct H as [-> _]. now exists [c].
  - destruct H as [-> _]. now exists l.
  - destruct H as (x & _ & -> & _). now exists [x].
  - destruct H as (w & _ & _ & -> & _). now exists w.
  - destruct H as (s1 & cs1 & H1 & H2).
    destruct (IH1 _ _ _ _ H1) as [w1 ->], (IH2 _ _ _ _ H2) as [w2 ->].
    exists (w1 ++ w2). now rewrite app_assoc.
  - destruct H as [H|H]; eauto.
  - destruct H as [H|[-> _]]; eauto. now exists [].
  - destruct H as (w & _ & _ & -> & _). now exists w.
  - destruct H as [-> _]. now exists [].
Qed.

Lemma firstn_app_rest (w s' : str) :
  firstn (length (w ++ s') - length s') (w ++ s') = w.
Proof.
  rewrite length_app, Nat.add_sub.
  rewrite firstn_app, Nat.sub_diag, firstn_all. cbn. apply app_nil_r.
Qed.

(** Whatever the matcher returns comes from a match of the pattern followed
    by a success of the continuation. *)
Lemma exec_sound r : forall s cs k m,
  exec r s cs k = Some m ->
  exists s' cs', Match r s cs s' cs' /\ k s' cs' = Some m.
Proof.
  induction r as [c|l|p|p min g|r1 IH1 r2 IH2|r1 IH1 r2 IH2|r1 IH1|n r1 IH1|];
    intros s cs k m H; cbn [exec] in H; cbn [Match].
  - destruct s as [|x s]; [discriminate|].
    destruct (Ascii.eqb x c) eqn:E; [|discriminate].
    apply Ascii.eqb_eq in E as ->. now exists s, cs.
  - destruct (starts_with l s) eqn:E; [|discriminate].
    exists (skipn (length l) s), cs. repeat split; auto.
    now apply starts_with_app.
  - destruct s as [|x s]; [discriminate|].
    destruct (p x) eqn:E; [|discriminate].
    exists s, cs. split; [|exact H]. now exists x.
  - destruct g.
    + apply rep_greedy_sound in H as (w & s' & -> & Hw & Hmin & Hk).
      exists s', cs. split; [|exact Hk]. now exists w.
    + apply rep_lazy_sound in H as (w & s' & -> & Hw & Hmin & Hk).
      exists s', cs. split; [|exact Hk]. now exists w.
  - apply IH1 in H as (s1 & cs1 & H1 & H).
    apply IH2 in H as (s2 & cs2 & H2 & H).
    exists s2, cs2. split; [|exact H]. now exists s1, cs1.
  - destruct (exec r1 s cs k) as [m'|] eqn:E.
    + injection H as ->. apply IH1 in E as (s' & cs' & H1 & Hk).
      exists s', cs'. auto.
    + apply IH2 in H as (s' & cs' & H2 & Hk). exists s', cs'. auto.
  - destruct (exec r1 s cs k) as [m'|] eqn:E.
    + injection H as ->. apply IH1 in E as (s' & cs' & H1 & Hk).
      exists s', cs'. auto.
    + exists s, cs. auto.
  - apply IH1 in H as (s' & cs' & H1 & Hk).
    destruct (Match_suffix _ _ _ _ _ H1) as [w ->].
    rewrite firstn_app_rest in Hk.
    exists s', ((n, w) :: cs'). split; [|exact Hk]. now exists w, cs'.
  - destruct s as [|c [|c' s]]; try discriminate.
    + exists [], cs. auto.
    + destruct (N.eqb (code c) 10) eqn:E; [|discriminate].
      apply code_eqb in E as ->. exists [chr 10], cs. auto.
Qed.

Lemma re_match_sound r s m :
  re_match r s = Some m -> exists s', Match r s [] s' m.
Proof.
  intros H. apply exec_sound in H as (s' & cs' & HM & [= <-]). now exists s'.
Qed.

(** ** The matcher misses no match, and a lazy repetition stops early *)

Section RepComplete.
Variable A : Type.
Variable p : ascii -> bool.
Variable k : str -> option A.

Lemma rep_greedy_complete w : forall min s',
  forallb p w = true -> min <= length w -> k s' <> None ->
  rep_greedy p min (w ++ s') k <> None.
Proof.
  induction w as [|c w IH]; intros min s' Hw Hmin Hk.
  - cbn in Hmin. assert (min = 0) as -> by lia. cbn [app].
    destruct s' as [|c s']; cbn [rep_greedy]; [exact Hk|].
    destruct (p c); [|exact Hk].
    now destruct (rep_greedy p (pred 0) s' k).
  - cbn in Hw. apply andb_prop in Hw as [Hc Hw].
    cbn [app rep_greedy]. rewrite Hc.
    specialize (IH (pred min) s' Hw).
    destruct (rep_greedy p (pred min) (w ++ s') k); [discriminate|].
    exfalso. apply IH; [cbn in Hmin; lia|exact Hk|reflexivity].
Qed.

Lemma rep_lazy_complete w : forall min s',
  forallb p w = true -> min <= length w -> k s' <> None ->
  rep_lazy p min (w ++ s') k <> None.
Proof.
  induction w as [|c w IH]; intros min s' Hw Hmin Hk.
  - cbn in Hmin. assert (min = 0) as -> by lia. cbn [app].
    destruct s'; cbn [rep_lazy]; now destruct (k _).
  - cbn in Hw. apply andb_prop in Hw as [Hc Hw].
    destruct min as [|min]; cbn [app rep_lazy].
    + destruct (k (c :: w ++ s')); [discriminate|]. rewrite Hc.
      apply IH; [exact Hw|lia|exact Hk].
    + rewrite Hc. apply IH; [exact Hw|cbn in Hmin; lia|exact Hk].
Qed.

(** The lazy repetition returns what the continuation returns at the
    shortest repetition it accepts. *)
Lemma rep_lazy_first s : forall min r,
  rep_lazy p min s k = Some r ->
  exists w s', s = w ++ s' /\ forallb p w = true /\ min <= length w /\
               k s' = Some r /\
               forall w1 s1, s = w1 ++ s1 -> min <= length w1 ->
                             length w1 < length w -> k s1 = None.
Proof.
  induction s as [|c s IH]; intros min r H.
  - destruct min; cbn in H; [|discriminate].
    destruct (k []) eqn:Ek; [|discriminate]. injection H as ->.
    exists [], []. repeat split; auto. cbn. intros; lia.
  - destruct min as [|min]; cbn [rep_lazy] in H.
    + destruct (k (c :: s)) as [r'|] eqn:Ek.
      * injection H as ->. exists [], (c :: s). repeat split; auto.
        cbn. intros; lia.
      * destruct (p c) eqn:Ec; [|discriminate].
        destruct (IH _ _ H) as (w & s' & -> & Hw & Hmin & Hk & Hfirst).
        exists (c :: w), s'. cbn [forallb]. rewrite Ec, Hw.
        repeat split; auto; [cbn; lia|].
        intros [|c1 w1] s1 Hs _ Hlen.
        -- cbn in Hs. now subst s1.
        -- cbn in Hs. injection Hs as <- Hs.
           apply (Hfirst w1 s1 Hs); cbn in *; lia.
    + destruct (p c) eqn:Ec; [|discriminate].
      destruct (IH _ _ H) as (w & s' & -> & Hw & Hmin & Hk & Hfirst).
      exists (c :: w), s'. cbn [forallb]. rewrite Ec, Hw.
      repeat split; auto; [cbn; lia|].
      intros [|c1 w1] s1 Hs Hmin1 Hlen; [cbn in Hmin1; lia|].
      cbn in Hs. injection Hs as <- Hs.
      apply (Hfirst w1 s1 Hs); cbn in *; lia.
Qed.
End RepComplete.

Lemma skipn_length_app (A : Type) (l s : list A) : skipn (length l) (l ++ s) = s.
Proof. induction l; cbn; auto. Qed.

(** If the pattern has a match after which the continuation succeeds, the
    matcher succeeds. *)
Lemma exec_complete r : forall s cs k s' cs',
  Match r s cs s' cs' -> k s' cs' <> None -> exec r s cs k <> None.
Proof.
  induction r as [c|l|p|p min g|r1 IH1 r2 IH2|r1 IH1 r2 IH2|r1 IH1|n r1 IH1|];
    intros s cs k s' cs' H Hk; cbn [Match] in H; cbn [exec].
  - destruct H as [-> ->]. now rewrite Ascii.eqb_refl.
  - destruct H as [-> ->]. now rewrite starts_with_prefix, skipn_length_app.
  - destruct H as (x & Hx & -> & ->). now rewrite Hx.
  - destruct H as (w & Hw & Hmin & -> & ->).
    destruct g; [now apply rep_greedy_complete|now apply rep_lazy_complete].
  - destruct H as (s1 & cs1 & H1 & H2).
    apply (IH1 _ _ _ _ _ H1). now apply (IH2 _ _ _ _ _ H2).
  - destruct H as [H|H].
    + specialize (IH1 _ _ _ _ _ H Hk). now destruct (exec r1 s cs k).
    + specialize (IH2 _ _ _ _ _ H Hk). now destruct (exec r1 s cs k).
  - destruct (exec r1 s cs k) eqn:E; [discriminate|].
    destruct H as [H|[-> ->]]; [|exact Hk].
    exfalso. now apply (IH1 _ _ _ _ _ H Hk).
  - destruct H as (w & cs1 & H1 & -> & ->).
    apply (IH1 _ _ _ _ _ H1). now rewrite firstn_app_rest.
  - destruct H as (-> & -> & [->| ->]); [exact Hk|]. exact Hk.
Qed.

(** ** What the patterns accept *)

(** Facts about the character classes, by arithmetic on code points. *)
Ltac cls :=
  unfold is_upper, is_lower, is_digit, is_space, is_upper_digit_space,
    not_newline, is_dot, is_dquote, not_dquote, in_range in *;
  repeat rewrite ?andb_true_iff, ?orb_true_iff, ?andb_false_iff, ?orb_false_iff,
    ?negb_true_iff, ?negb_false_iff, ?N.leb_le, ?N.leb_gt, ?N.eqb_eq, ?N.eqb_neq in *;
  cbn in *; lia.

Ltac break :=
  repeat match goal with
         | H : exists _, _ |- _ => destruct H
         | H : _ /\ _ |- _ => destruct H
         | H : _ \/ _ |- _ => destruct H
         end.

Ltac same_tail :=
  repeat match goal with
         | H : ?a ++ ?s = ?b ++ ?s |- _ => apply app_inv_tail in H
         | H : ?x :: ?s = ?b ++ ?s |- _ => apply (app_inv_tail s [x] b) in H
         | H : ?x :: ?a ++ ?s = ?b ++ ?s |- _ =>
             apply (app_inv_tail s (x :: a) b) in H
         end.

(** A line [item_pattern] matches is whitespace followed by one of the three
    numbering forms; the form decides which of the groups 2, 3, 4 is set. *)
Lemma item_match_shape line m :
  re_match item_pattern line = Some m ->
  exists ws,
    forallb is_space ws = true /\ group 1 m = Some ws /\
    ((exists N rest,
         line = ws ++ N ++ "."%char :: rest /\
         forallb is_digit N = true /\ 1 <= length N /\
         group 2 m = Some N /\ group 3 m = None /\ group 4 m = None) \/
     (exists N rest,
         line = ws ++ "("%char :: N ++ ")"%char :: rest /\
         forallb is_digit N = true /\ 1 <= length N /\
         group 2 m = None /\ group 3 m = Some N /\ group 4 m = None) \/
     (exists c rest,
         line = ws ++ c :: "."%char :: rest /\ is_lower c = true /\
         group 2 m = None /\ group 3 m = None /\ group 4 m = Some [c])).
Proof.
  intros H. apply re_match_sound in H as [s' H].
  cbn [Match cat item_pattern item_action] in H.
  break; subst; same_tail; subst;
    (eexists; refine (conj _ (conj eq_refl _)); [eassumption|]);
    first [ left; do 2 eexists; split; [reflexivity|];
            repeat split; solve [eassumption | reflexivity]
          | right; left; do 2 eexists; split; [reflexivity|];
            repeat split; solve [eassumption | reflexivity]
          | right; right; do 2 eexists; split; [reflexivity|];
            repeat split; solve [eassumption | reflexivity] ].
Qed.

(** A line [cas_message_line_pattern] matches starts with an uppercase
    letter, and so does its first group. *)
Lemma cas_match_shape line m :
  re_match cas_message_line_pattern line = Some m ->
  exists c w rest,
    is_upper c = true /\ line = c :: rest /\ group 1 m = Some (c :: w) /\
    forallb is_upper_digit_space w = true.
Proof.
  intros H. apply re_match_sound in H as [s' H].
  cbn [Match cat cas_message_line_pattern] in H.
  break; subst; same_tail; subst;
    do 3 eexists; (split; [eassumption|]); (split; [reflexivity|]);
    (split; [reflexivity|assumption]).
Qed.

Lemma item_match_head line m :
  re_match item_pattern line = Some m ->
  exists c rest, line = c :: rest /\ is_upper c = false.
Proof.
  intros H. apply item_match_shape in H as (ws & Hws & _ & H).
  destruct ws as [|c ws].
  - destruct H as [(N & rest & -> & HN & Hlen & _)
                  |[(N & rest & -> & _)|(c & rest & -> & Hc & _)]].
    + destruct N as [|d N]; [cbn in Hlen; lia|].
      cbn in HN. apply andb_prop in HN as [Hd _].
      exists d, (N ++ "."%char :: rest). split; [reflexivity|]. cls.
    + now eexists _, _.
    + exists c, ("."%char :: rest). split; [reflexivity|]. cls.
  - cbn in Hws. apply andb_prop in Hws as [Hc _].
    assert (Hu : is_upper c = false) by cls.
    destruct H as [(N & rest & -> & _)|[(N & rest & -> & _)|(x & rest & -> & _)]];
      now eexists _, _.
Qed.

(** No line has both shapes. *)
Lemma cas_line_is_no_item line :
  matches cas_message_line_pattern line = true ->
  matches item_pattern line = false.
Proof.
  unfold matches.
  destruct (re_match cas_message_line_pattern line) as [m|] eqn:Ecas; [|discriminate].
  intros _.
  destruct (re_match item_pattern line) as [m'|] eqn:Eitem; [|reflexivity].
  apply cas_match_shape in Ecas as (c & w & rest & Hc & -> & _).
  apply item_match_head in Eitem as (c' & rest' & [= <- <-] & Hc').
  congruence.
Qed.

(** ** The loop: progress and reachable states *)

Lemma merge_continuations_bounds rest j i0 ins act :
  let mg := merge_continuations rest j i0 ins act in
  i0 <= m_i mg /\ j <= m_j mg /\ m_j mg <= j + length rest /\
  m_i mg - i0 <= m_j mg - j.
Proof.
  revert j i0 ins act.
  induction rest as [|l rest IH]; intros j i0 ins act; cbn [merge_continuations].
  - cbn. lia.
  - destruct (negb (truthy (rstrip l))).
    + specialize (IH (S j) i0 ins act). cbn zeta in IH. cbn [length]. lia.
    + destruct (starts_new_pattern (rstrip l)).
      * cbn. lia.
      * destruct (merge_line (rstrip l) ins act) as [ins' act'].
        specialize (IH (S j) (S i0) ins' act'). cbn zeta in IH. cbn [length]. lia.
Qed.

Lemma on_step_eq lines st m c :
  on_step lines st m c =
  mkState (checklists st)
          (Some (add_step_to_hierarchy c (snd (make_step lines (i st) m))
                                       (indent_level (snd (make_step lines (i st) m)))))
          (current_section st) (current_subsection st) (pending_cas st)
          (pending_cas_type st) (pending_cas_description st)
          (pending_pfd_alert st) (line_count st) (fst (make_step lines (i st) m)).
Proof. unfold on_step. now destruct (make_step lines (i st) m). Qed.

Lemma make_step_i lines i0 m :
  fst (make_step lines i0 m) =
  m_i (merge_continuations (skipn i0 lines) i0 i0
         (strip (group_str 5 m))
         (if otruthy (group 6 m) then strip (ostr (group 6 m)) else [])).
Proof. unfold make_step. now destruct (numbering _ _ _ _). Qed.

Lemma make_step_leaf lines i0 m :
  sub_steps (snd (make_step lines i0 m)) = [].
Proof. unfold make_step. now destruct (numbering _ _ _ _). Qed.

Lemma leaf_hierarchy_ok s : sub_steps s = [] -> hierarchy_ok s = true.
Proof. intros H. rewrite hierarchy_ok_eq, H. reflexivity. Qed.

Lemma cas_lookahead_i lines st line name :
  i st <= snd (cas_lookahead lines st line name) <= S (i st).
Proof.
  unfold cas_lookahead.
  repeat match goal with
         | |- context [if ?b then _ else _] => destruct b
         end; cbn [snd]; lia.
Qed.

Lemma on_cas_i lines st line m :
  i st <= i (on_cas lines st line m) <= S (i st).
Proof.
  unfold on_cas.
  pose proof (cas_lookahead_i lines st line (strip (group_str 1 m))) as H.
  destruct (cas_lookahead _ _ _ _) as [ty i']. cbn [snd] in H.
  now destruct (current_checklist st).
Qed.

Lemma on_title_i st m : i (on_title st m) = i st.
Proof. unfold on_title. now destruct (_ || _). Qed.

Lemma on_pfd_i st m : i (on_pfd st m) = i st.
Proof. unfold on_pfd. now destruct (current_checklist st). Qed.

(** Every iteration moves the scan position forward. *)
Lemma loop_body_advances lines st : i st < i (loop_body lines st).
Proof.
  unfold loop_body.
  destruct (classify _ _) as [|m|m|m|m|m|m c|]; cbn [on_section on_subsection advance i];
    try lia.
  - rewrite on_title_i. cbn. lia.
  - rewrite on_pfd_i. cbn. lia.
  - pose proof (on_cas_i lines (advance st) (line_at lines (i st)) m) as H.
    cbn [advance i] in H. lia.
  - rewrite on_step_eq. cbn [i advance]. rewrite make_step_i.
    match goal with
    | |- context [merge_continuations ?r ?j ?k ?a ?b] =>
        pose proof (merge_continuations_bounds r j k a b) as H
    end.
    cbn zeta in H. lia.
Qed.

(** The fuel of [parse_checklist] is never what stops the loop: it ends with
    the loop condition false. *)
Lemma scan_exhausts fuel lines st :
  length lines <= i st + fuel ->
  length lines <= i (scan fuel lines st).
Proof.
  revert st. induction fuel as [|fuel IH]; intros st H; cbn [scan].
  - lia.
  - destruct (i st <? length lines) eqn:E.
    + apply IH. pose proof (loop_body_advances lines st). lia.
    + apply Nat.ltb_ge in E. exact E.
Qed.

(** More fuel than that changes nothing. *)
Lemma scan_stable fuel lines st :
  length lines <= i st -> scan fuel lines st = st.
Proof.
  intros H. destruct fuel; cbn [scan]; [reflexivity|].
  apply Nat.ltb_ge in H. now rewrite H.
Qed.

Lemma scan_plus a b lines st :
  scan (a + b) lines st = scan b lines (scan a lines st).
Proof.
  revert st. induction a as [|a IH]; intros st; cbn [scan Nat.add]; [reflexivity|].
  destruct (i st <? length lines) eqn:E; [apply IH|].
  apply Nat.ltb_ge in E. now rewrite scan_stable.
Qed.

Lemma scan_reachable fuel lines st :
  Reachable lines st -> Reachable lines (scan fuel lines st).
Proof.
  revert st. induction fuel as [|fuel IH]; intros st H; cbn [scan]; [exact H|].
  destruct (i st <? length lines) eqn:E; [|exact H].
  apply IH. constructor; [exact H|]. now apply Nat.ltb_lt.
Qed.

Lemma parse_checklist_reachable lines :
  exists st, Reachable lines st /\ length lines <= i st /\
             parse_checklist lines = append_current st.
Proof.
  exists (scan (length lines) lines init_state). split; [|split].
  - apply scan_reachable. constructor.
  - apply scan_exhausts. lia.
  - reflexivity.
Qed.

(** What [classify] says about the line and the open checklist. *)
Lemma classify_step_item cur line m c :
  classify cur line = StepItem m c ->
  cur = Some c /\ re_match item_pattern line = Some m.
Proof.
  unfold classify, classify_step.
  repeat match goal with
         | |- context [match ?x with _ => _ end] => destruct x eqn:?
         end; try discriminate; intros H; injection H as <- <-; auto.
Qed.

Lemma every_checklist_append P st :
  every_checklist P st -> Forall P (append_current st).
Proof.
  intros [Hall Hcur]. unfold append_current.
  destruct (current_checklist st) as [c|]; [|exact Hall].
  destruct (has_steps c); [|exact Hall].
  apply Forall_app. split; [exact Hall|]. constructor; auto.
Qed.

Lemma every_checklist_advance P st :
  every_checklist P st -> every_checklist P (advance st).
Proof. exact (fun H => H). Qed.

(** [P] holds of every checklist of every reachable state as soon as a
    checklist without steps has it and the updates of the open checklist
    keep it. *)
Lemma every_checklist_invariant (P : Checklist -> Prop) lines :
  (forall t s sub a b d e, P (mkChecklist t s sub a b d e [])) ->
  (forall c a, P c -> P (set_alert_message c a)) ->
  (forall c n t, P c -> P (set_cas c n t)) ->
  (forall c i0 m, P c ->
      P (add_step_to_hierarchy c (snd (make_step lines i0 m))
                               (indent_level (snd (make_step lines i0 m))))) ->
  forall st, Reachable lines st -> every_checklist P st.
Proof.
  intros Hnew Halert Hcas Hstep st Hst.
  induction Hst as [|st Hst IH Hlt].
  - split; [constructor|discriminate].
  - unfold loop_body.
    destruct (classify _ _) as [|m|m|m|m|m|m c|] eqn:E;
      try exact IH.
    + (* title *)
      unfold on_title. set (new := mkChecklist _ _ _ _ _ _ _ _).
      assert (Happ : Forall P (append_current (advance st)))
        by now apply every_checklist_append.
      destruct (_ || _); (split; cbn; [exact Happ|]);
        intros c [= <-]; apply Hnew.
    + (* PFD alert *)
      unfold on_pfd. destruct IH as [Hall Hcur]. cbn [advance current_checklist].
      destruct (current_checklist st) as [c|] eqn:Ec;
        (split; cbn; [exact Hall|]); [|discriminate].
      intros c' [= <-]. apply Halert. now apply Hcur.
    + (* CAS message *)
      unfold on_cas. destruct (cas_lookahead _ _ _ _) as [ty i'].
      destruct IH as [Hall Hcur]. cbn [advance current_checklist].
      destruct (current_checklist st) as [c|] eqn:Ec;
        (split; cbn; [exact Hall|]); [|discriminate].
      intros c' [= <-]. apply Hcas. now apply Hcur.
    + (* step *)
      rewrite on_step_eq. destruct IH as [Hall Hcur].
      apply classify_step_item in E as [Ec _]. cbn [advance current_checklist] in Ec.
      split; cbn; [exact Hall|].
      intros c' [= <-]. apply Hstep. now apply Hcur.
Qed.

Lemma loop_body_token lines st :
  loop_body lines st =
  match token_at lines st with
  | Blank => advance st
  | SectionHeader m => on_section (advance st) m
  | SubsectionHeader m => on_subsection (advance st) m
  | ChecklistTitle m => on_title (advance st) m
  | PfdAlert m => on_pfd (advance st) m
  | CasMessage m => on_cas lines (advance st) (line_at lines (i st)) m
  | StepItem m c => on_step lines (advance st) m c
  | Other => advance st
  end.
Proof. reflexivity. Qed.

(** A property every iteration keeps, except those that handle a token of
    the kind [bad], holds after any number of other iterations. *)
Lemma scan_keeps (Q : State -> Prop) (bad : Token -> bool) lines :
  (forall st, bad (token_at lines st) = false -> Q st -> Q (loop_body lines st)) ->
  forall n st, Q st -> no_token bad lines st n -> Q (scan n lines st).
Proof.
  intros Hkeep. induction n as [|n IH]; intros st HQ Hno; cbn [scan]; [exact HQ|].
  destruct (i st <? length lines) eqn:E; [|exact HQ].
  apply IH.
  - apply Hkeep; [|exact HQ]. exact (Hno 0 (Nat.lt_0_succ n)).
  - intros k Hk. specialize (Hno (S k) (proj1 (Nat.succ_lt_mono k n) Hk)).
    cbn [scan] in Hno. now rewrite E in Hno.
Qed.

(** ** C3: the hierarchy invariant *)

Lemma parse_checklist_steps_ok lines :
  Forall steps_ok (parse_checklist lines).
Proof.
  destruct (parse_checklist_reachable lines) as (st & Hst & _ & ->).
  apply every_checklist_append.
  apply (@every_checklist_invariant steps_ok lines); try exact Hst.
  - intros. constructor.
  - intros c a H. exact H.
  - intros c n t H. exact H.
  - intros c i0 m H. apply add_step_to_hierarchy_ok; [|exact H].
    apply leaf_hierarchy_ok, make_step_leaf.
Qed.

(** C3. In every checklist a parse produces, every child of every step
    reachable in the step tree has an indent level exactly one greater than
    its parent's. *)
Theorem child_indent_is_parent_plus_one lines c parent child :
  In c (parse_checklist lines) ->
  In parent (all_steps (steps c)) ->
  In child (sub_steps parent) ->
  indent_level child = (indent_level parent + 1)%Z.
Proof.
  intros Hc Hp Hchild.
  pose proof (parse_checklist_steps_ok lines) as Hok.
  rewrite Forall_forall in Hok. specialize (Hok c Hc).
  unfold steps_ok in Hok. rewrite Forall_forall in Hok.
  unfold all_steps in Hp. apply in_flat_map in Hp as [top [Htop Hp]].
  exact (hierarchy_ok_below top (Hok top Htop) parent Hp child Hchild).
Qed.

(** ** C9: the CAS description is never set *)

Lemma pending_cas_description_none lines st :
  Reachable lines st -> pending_cas_description st = None.
Proof.
  induction 1 as [|st Hst IH Hlt]; [reflexivity|].
  rewrite loop_body_token.
  destruct (token_at lines st) as [|m|m|m|m|m|m c|]; cbn; try exact IH.
  - unfold on_title. now destruct (_ || _).
  - unfold on_pfd. now destruct (current_checklist _).
  - unfold on_cas. destruct (cas_lookahead _ _ _ _).
    now destruct (current_checklist _).
  - now rewrite on_step_eq.
Qed.

Lemma add_step_to_hierarchy_frame c s lvl :
  let c' := add_step_to_hierarchy c s lvl in
  title c' = title c /\ section c' = section c /\ subsection c' = subsection c /\
  cas c' = cas c /\ cas_type c' = cas_type c /\
  cas_description c' = cas_description c /\ alert_message c' = alert_message c.
Proof.
  unfold add_step_to_hierarchy.
  destruct (lvl =? 0)%Z; [now cbn|].
  destruct (steps c); [now cbn|].
  now destruct (try_last_first _ _).
Qed.

Lemma every_cas_description_none lines st :
  Reachable lines st ->
  every_checklist (fun c => cas_description c = None) st.
Proof.
  induction 1 as [|st Hst IH Hlt]; [split; [constructor|discriminate]|].
  pose proof (pending_cas_description_none Hst) as Hp.
  destruct IH as [Hall Hcur].
  rewrite loop_body_token.
  destruct (token_at lines st) as [|m|m|m|m|m|m c|] eqn:E;
    try (split; assumption).
  - unfold on_title.
    assert (Happ : Forall (fun c => cas_description c = None)
                          (append_current (advance st)))
      by (apply every_checklist_append; split; assumption).
    destruct (_ || _); (split; cbn; [exact Happ|]); intros c [= <-]; exact Hp.
  - unfold on_pfd. cbn [advance current_checklist].
    destruct (current_checklist st) as [c|] eqn:Ec;
      (split; cbn; [exact Hall|]); [|discriminate].
    intros c' [= <-]. cbn. now apply Hcur.
  - unfold on_cas. destruct (cas_lookahead _ _ _ _) as [ty i'].
    cbn [advance current_checklist].
    destruct (current_checklist st) as [c|] eqn:Ec;
      (split; cbn; [exact Hall|]); [|discriminate].
    intros c' [= <-]. cbn. now apply Hcur.
  - rewrite on_step_eq. apply classify_step_item in E as [Ec _].
    split; cbn; [exact Hall|]. intros c' [= <-].
    destruct (add_step_to_hierarchy_frame c (snd (make_step lines (S (i st)) m))
                (indent_level (snd (make_step lines (S (i st)) m))))
      as (_ & _ & _ & _ & _ & -> & _).
    now apply Hcur.
Qed.

(** C9. The pending CAS-description cell is absent in every state the scan
    reaches, and so is the [cas_description] of every checklist a parse
    produces. *)
Theorem cas_description_always_absent lines :
  (forall st, Reachable lines st -> pending_cas_description st = None) /\
  (forall c, In c (parse_checklist lines) -> cas_description c = None).
Proof.
  split.
  - intros st. apply (@pending_cas_description_none lines).
  - destruct (parse_checklist_reachable lines) as (st & Hst & _ & ->).
    apply Forall_forall, every_checklist_append.
    exact (every_cas_description_none Hst).
Qed.

(** ** C2: CAS lines and step items *)

Lemma classify_cas_message cur line m :
  classify cur line = CasMessage m ->
  re_match cas_message_line_pattern line = Some m.
Proof.
  unfold classify, classify_step.
  repeat match goal with
         | |- context [match ?x with _ => _ end] => destruct x eqn:?
         end; try discriminate; now intros [= <-].
Qed.

(** C2. Whatever the scan state (a checklist open or not), a line the loop
    handles as a CAS message does not match the step-item pattern. *)
Theorem cas_message_is_no_step_item (current : option Checklist) line m :
  classify current line = CasMessage m ->
  re_match item_pattern line = None.
Proof.
  intros H. apply classify_cas_message in H.
  pose proof (cas_line_is_no_item line) as Hno. unfold matches in Hno.
  rewrite H in Hno. specialize (Hno eq_refl).
  now destruct (re_match item_pattern line).
Qed.

(** ** C10: a section header leaves the subsection *)

Lemma loop_body_keeps_subsection lines st :
  is_subsection_header (token_at lines st) = false ->
  current_subsection (loop_body lines st) = current_subsection st.
Proof.
  rewrite loop_body_token.
  destruct (token_at lines st) as [|m|m|m|m|m|m c|]; cbn; try reflexivity.
  - discriminate.
  - unfold on_title. now destruct (_ || _).
  - unfold on_pfd. now destruct (current_checklist _).
  - unfold on_cas. destruct (cas_lookahead _ _ _ _).
    now destruct (current_checklist _).
  - now rewrite on_step_eq.
Qed.

Lemma on_title_current st m :
  current_checklist (on_title st m) =
  Some (mkChecklist (strip (group_str 1 m)) (ostr (current_section st))
                    (current_subsection st) (pending_cas st) (pending_cas_type st)
                    (pending_cas_description st) (pending_pfd_alert st) []).
Proof. unfold on_title. now destruct (_ || _). Qed.

(** C10. Handling a section header sets [current_section] and leaves
    [current_subsection] (and every other variable but the counters) as it
    was; as long as no subsection header is handled afterwards, the
    subsection stays, and a checklist created then carries it. *)
Theorem section_header_keeps_subsection lines st m :
  token_at lines st = SectionHeader m ->
  let st1 := loop_body lines st in
  st1 = mkState (checklists st) (current_checklist st) (group 1 m)
                (current_subsection st) (pending_cas st) (pending_cas_type st)
                (pending_cas_description st) (pending_pfd_alert st)
                (S (line_count st)) (S (i st)) /\
  forall n,
    no_token is_subsection_header lines st1 n ->
    let st2 := scan n lines st1 in
    current_subsection st2 = current_subsection st /\
    forall m2,
      token_at lines st2 = ChecklistTitle m2 ->
      exists c, current_checklist (loop_body lines st2) = Some c /\
                subsection c = current_subsection st.
Proof.
  intros Htok st1.
  assert (Hst1 : st1 = on_section (advance st) m).
  { unfold st1. now rewrite loop_body_token, Htok. }
  split; [exact Hst1|].
  intros n Hno st2.
  assert (Hsub : current_subsection st2 = current_subsection st).
  { unfold st2.
    apply (@scan_keeps (fun s => current_subsection s = current_subsection st)
                       is_subsection_header lines).
    - intros s Hs Hq. now rewrite loop_body_keeps_subsection.
    - now rewrite Hst1.
    - exact Hno. }
  split; [exact Hsub|].
  intros m2 Htitle. rewrite loop_body_token, Htitle, on_title_current.
  eexists. split; [reflexivity|]. exact Hsub.
Qed.

(** ** C8: which checklists are produced *)

Lemma loop_body_checklists lines st :
  checklists (loop_body lines st) =
  if is_checklist_title (token_at lines st)
  then append_current st else checklists st.
Proof.
  rewrite loop_body_token.
  destruct (token_at lines st) as [|m|m|m|m|m|m c|]; cbn; try reflexivity.
  - unfold on_title. now destruct (_ || _).
  - unfold on_pfd. now destruct (current_checklist _).
  - unfold on_cas. destruct (cas_lookahead _ _ _ _).
    now destruct (current_checklist _).
  - now rewrite on_step_eq.
Qed.

Lemma append_current_filter st :
  append_current st =
  checklists st ++ filter has_steps (opt_list (current_checklist st)).
Proof.
  unfold append_current.
  destruct (current_checklist st) as [c|]; cbn; [|now rewrite app_nil_r].
  destruct (has_steps c); [reflexivity|now rewrite app_nil_r].
Qed.

Lemma scan_closed_by fuel lines st :
  append_current (scan fuel lines st) =
  checklists st ++ filter has_steps (closed_by fuel lines st).
Proof.
  revert st. induction fuel as [|fuel IH]; intros st; cbn [scan closed_by].
  - apply append_current_filter.
  - destruct (i st <? length lines); [|apply append_current_filter].
    rewrite IH, loop_body_checklists, filter_app.
    destruct (is_checklist_title _); cbn [filter app].
    + now rewrite append_current_filter, <- app_assoc.
    + reflexivity.
Qed.

Lemma loop_body_keeps_no_steps lines st :
  is_step_item (token_at lines st) = false ->
  open_without_steps st -> open_without_steps (loop_body lines st).
Proof.
  intros Hno (c & Hc & Hsteps). rewrite loop_body_token. unfold open_without_steps.
  destruct (token_at lines st) as [|m|m|m|m|m|m c'|]; cbn; eauto.
  - rewrite on_title_current. eauto.
  - unfold on_pfd. cbn. rewrite Hc. cbn. eauto.
  - unfold on_cas. destruct (cas_lookahead _ _ _ _). cbn. rewrite Hc. cbn. eauto.
  - discriminate.
Qed.

Lemma reachable_is_scan lines st :
  Reachable lines st -> exists k, st = scan k lines init_state.
Proof.
  induction 1 as [|st Hst [k ->] Hlt].
  - now exists 0.
  - exists (k + 1). rewrite scan_plus. cbn [scan].
    apply Nat.ltb_lt in Hlt. now rewrite Hlt.
Qed.

Lemma reachable_final lines st :
  Reachable lines st -> length lines <= i st ->
  parse_checklist lines = append_current st.
Proof.
  intros Hst Hi. destruct (reachable_is_scan Hst) as [k Hk].
  unfold parse_checklist. f_equal.
  assert (H1 : scan (length lines + k) lines init_state =
               scan (length lines) lines init_state).
  { rewrite scan_plus. apply scan_stable, scan_exhausts. lia. }
  assert (H2 : scan (k + length lines) lines init_state = st).
  { rewrite scan_plus, <- Hk. now apply scan_stable. }
  rewrite <- H1, Nat.add_comm. exact H2.
Qed.

(** C8. The parse result is the list of the checklists the scan closed (at a
    later title or at the end of the input) that have at least one top-level
    step, in order.  In particular, after a title line and any number of
    lines none of which is handled as a step, the open checklist has no
    step, and it is dropped both by the next title and by the end of the
    input. *)
Theorem output_is_checklists_with_steps lines :
  parse_checklist lines = filter has_steps (closed_checklists lines) /\
  (forall c, In c (parse_checklist lines) -> steps c <> []) /\
  (forall st m n,
      Reachable lines st ->
      token_at lines st = ChecklistTitle m ->
      no_token is_step_item lines (loop_body lines st) n ->
      let st2 := scan n lines (loop_body lines st) in
      open_without_steps st2 /\
      (forall m2, token_at lines st2 = ChecklistTitle m2 ->
                  checklists (loop_body lines st2) = checklists st2) /\
      (length lines <= i st2 -> parse_checklist lines = checklists st2)).
Proof.
  assert (Heq : parse_checklist lines = filter has_steps (closed_checklists lines)).
  { unfold parse_checklist, closed_checklists. now rewrite scan_closed_by. }
  split; [exact Heq|]. split.
  - intros c Hc. rewrite Heq in Hc. apply filter_In in Hc as [_ Hc].
    unfold has_steps in Hc. now destruct (steps c).
  - intros st m n Hst Htitle Hno st2.
    assert (Hopen : open_without_steps st2).
    { unfold st2. apply (@scan_keeps open_without_steps is_step_item lines).
      - apply loop_body_keeps_no_steps.
      - rewrite loop_body_token, Htitle. unfold open_without_steps.
        rewrite on_title_current. eauto.
      - exact Hno. }
    assert (Hdrop : append_current st2 = checklists st2).
    { destruct Hopen as (c & Hc & Hsteps). unfold append_current, has_steps.
      now rewrite Hc, Hsteps. }
    split; [exact Hopen|]. split.
    + intros m2 Ht2. now rewrite loop_body_checklists, Ht2.
    + intros Hend. rewrite <- Hdrop. apply reachable_final; [|exact Hend].
      apply scan_reachable. constructor; [exact Hst|].
      unfold token_at, classify, line_at in Htitle.
      destruct (Nat.lt_ge_cases (i st) (length lines)) as [Hlt|Hge]; [exact Hlt|].
      rewrite (nth_overflow _ _ Hge) in Htitle. discriminate.
Qed.

(** ** C4: pending values at a checklist title *)

Lemma lstrip_keeps x s :
  In x s -> is_space x = false -> In x (lstrip s).
Proof.
  intros Hin Hx. induction s as [|c s IH]; [contradiction|].
  cbn [lstrip]. destruct (is_space c) eqn:Ec; [|exact Hin].
  destruct Hin as [->|Hin]; [congruence|]. now apply IH.
Qed.

Lemma lstrip_incl x s : In x (lstrip s) -> In x s.
Proof.
  induction s as [|c s IH]; [contradiction|].
  cbn [lstrip]. destruct (is_space c); [|trivial].
  intros H. right. now apply IH.
Qed.

Lemma rstrip_keeps x s :
  In x s -> is_space x = false -> In x (rstrip s).
Proof.
  intros Hin Hx. unfold rstrip. apply -> in_rev.
  apply lstrip_keeps; [|exact Hx]. now apply -> in_rev.
Qed.

Lemma rstrip_incl x s : In x (rstrip s) -> In x s.
Proof.
  unfold rstrip. intros H. apply in_rev in H. apply lstrip_incl in H.
  now apply in_rev.
Qed.

Lemma strip_keeps x s :
  In x s -> is_space x = false -> In x (strip s).
Proof.
  intros Hin Hx. unfold strip. apply rstrip_keeps; [|exact Hx].
  now apply lstrip_keeps.
Qed.

Lemma strip_incl x s : In x (strip s) -> In x s.
Proof. unfold strip. intros H. now apply lstrip_incl, rstrip_incl. Qed.

Lemma in_not_nil (A : Type) (x : A) l : In x l -> l <> [].
Proof. now destruct l. Qed.

(** The name of a CAS message is not empty. *)
Lemma cas_name_not_empty line m :
  re_match cas_message_line_pattern line = Some m ->
  strip (group_str 1 m) <> [].
Proof.
  intros H. apply cas_match_shape in H as (c & w & rest & Hc & _ & Hg & _).
  unfold group_str. rewrite Hg. cbn [ostr].
  apply (@in_not_nil _ c), strip_keeps; [now left|]. cls.
Qed.

Lemma reachable_pending_cas_ok lines st :
  Reachable lines st -> pending_cas_ok st.
Proof.
  induction 1 as [|st Hst [IH1 IH2] Hlt]; [split; [discriminate|reflexivity]|].
  rewrite loop_body_token. unfold pending_cas_ok.
  destruct (token_at lines st) as [|m|m|m|m|m|m c|] eqn:E; cbn; auto.
  - unfold on_title. destruct (_ || _); cbn; auto. split; [discriminate|reflexivity].
  - unfold on_pfd. destruct (current_checklist _); cbn; auto.
  - apply classify_cas_message, cas_name_not_empty in E.
    unfold on_cas. destruct (cas_lookahead _ _ _ _).
    destruct (current_checklist _); cbn.
    + split; [discriminate|reflexivity].
    + split; [congruence|discriminate].
  - rewrite on_step_eq. cbn. auto.
Qed.

Lemma loop_body_keeps_no_pending_cas lines st :
  is_cas_message (token_at lines st) = false ->
  pending_cas st = None -> pending_cas (loop_body lines st) = None.
Proof.
  intros Hno Hp. rewrite loop_body_token.
  destruct (token_at lines st) as [|m|m|m|m|m|m c|]; cbn; auto.
  - unfold on_title. now destruct (_ || _).
  - unfold on_pfd. now destruct (current_checklist _).
  - discriminate.
  - now rewrite on_step_eq.
Qed.

(** C4, as the code has it. When a checklist title is handled, the new
    checklist takes the four pending values as they are.  The four cells are
    then cleared when the pending CAS name or the pending PFD alert is a
    non-empty string.  In the states the scan reaches this leaves the three
    CAS cells absent; as long as no CAS message is handled afterwards the
    pending CAS name stays absent, so the next checklist created has no
    [cas]. *)
Theorem title_takes_and_clears_pending lines st m :
  Reachable lines st ->
  token_at lines st = ChecklistTitle m ->
  let st1 := loop_body lines st in
  (exists c, current_checklist st1 = Some c /\ steps c = [] /\
             cas c = pending_cas st /\ cas_type c = pending_cas_type st /\
             cas_description c = pending_cas_description st /\
             alert_message c = pending_pfd_alert st) /\
  (otruthy (pending_cas st) || otruthy (pending_pfd_alert st) = true ->
   pending_cas st1 = None /\ pending_cas_type st1 = None /\
   pending_cas_description st1 = None /\ pending_pfd_alert st1 = None) /\
  (pending_cas st1 = None /\ pending_cas_type st1 = None /\
   pending_cas_description st1 = None) /\
  forall n,
    no_token is_cas_message lines st1 n ->
    let st2 := scan n lines st1 in
    pending_cas st2 = None /\
    forall m2,
      token_at lines st2 = ChecklistTitle m2 ->
      exists c2, current_checklist (loop_body lines st2) = Some c2 /\
                 cas c2 = None.
Proof.
  intros Hst Htitle st1.
  assert (Hst1 : st1 = on_title (advance st) m).
  { unfold st1. now rewrite loop_body_token, Htitle. }
  destruct (reachable_pending_cas_ok Hst) as [Hne Hty].
  pose proof (pending_cas_description_none Hst) as Hdesc.
  assert (Hcas : pending_cas st1 = None /\ pending_cas_type st1 = None /\
                 pending_cas_description st1 = None).
  { rewrite Hst1. unfold on_title. cbn [advance pending_cas pending_pfd_alert].
    destruct (pending_cas st) as [[|x name]|] eqn:Ep; cbn; auto.
    - exfalso. now apply Hne.
    - specialize (Hty eq_refl).
      destruct (otruthy (pending_pfd_alert st)); cbn; auto. }
  split; [|split; [|split; [exact Hcas|]]].
  - rewrite Hst1, on_title_current. eexists. split; [reflexivity|]. cbn. auto.
  - intros Hguard. rewrite Hst1. unfold on_title. cbn [advance pending_cas pending_pfd_alert].
    rewrite Hguard. cbn. auto.
  - intros n Hno st2.
    assert (Hp : pending_cas st2 = None).
    { unfold st2.
      apply (@scan_keeps (fun s => pending_cas s = None) is_cas_message lines).
      - apply loop_body_keeps_no_pending_cas.
      - apply Hcas.
      - exact Hno. }
    split; [exact Hp|].
    intros m2 Ht2. rewrite loop_body_token, Ht2, on_title_current.
    eexists. split; [reflexivity|]. exact Hp.
Qed.

(** ** C6: step lines *)

Lemma spaces_then_other ws s1 d r :
  forallb is_space ws = true -> ws ++ s1 = d :: r -> is_space d = false ->
  ws = [] /\ s1 = d :: r.
Proof.
  intros Hws H Hd. destruct ws as [|c ws]; [now split|].
  cbn in H, Hws. injection H as -> _. rewrite Hd in Hws. discriminate.
Qed.

(** Two runs of a class, each ended by a character outside it, that start
    the same string are the same run. *)
Lemma run_unique (p : ascii -> bool) a : forall b x y r r',
  forallb p a = true -> forallb p b = true ->
  a ++ x :: r = b ++ y :: r' -> p x = false -> p y = false ->
  a = b /\ x = y /\ r = r'.
Proof.
  induction a as [|c a IH]; intros [|c' b] x y r r' Ha Hb H Hx Hy; cbn in *.
  - injection H as -> ->. auto.
  - injection H as -> _. apply andb_prop in Hb as [Hb _]. congruence.
  - injection H as -> _. apply andb_prop in Ha as [Ha _]. congruence.
  - injection H as -> H.
    apply andb_prop in Ha as [_ Ha]. apply andb_prop in Hb as [_ Hb].
    destruct (IH _ _ _ _ _ Ha Hb H Hx Hy) as (-> & -> & ->). auto.
Qed.

Lemma lstrip_spaces ws d r :
  forallb is_space ws = true -> is_space d = false ->
  lstrip (ws ++ d :: r) = d :: r.
Proof.
  intros Hws Hd. induction ws as [|c ws IH]; cbn [app lstrip].
  - now rewrite Hd.
  - cbn in Hws. apply andb_prop in Hws as [Hc Hws]. rewrite Hc. now apply IH.
Qed.

(** The other patterns need a first character that is [#] or uppercase. *)
Lemma structural_head line :
  matches section_pattern line || matches subsection_pattern line
  || matches checklist_pattern line || matches pfd_alert_pattern line
  || matches cas_message_line_pattern line = true ->
  exists c rest, line = c :: rest /\ (c = "#"%char \/ is_upper c = true).
Proof.
  unfold matches. intros H.
  repeat match type of H with
         | _ || _ = true => apply orb_prop in H as [H|H]
         end;
    match type of H with
    | match re_match ?r line with _ => _ end = true =>
        destruct (re_match r line) as [m|] eqn:E; [clear H|discriminate]
    end;
    apply re_match_sound in E as [s' E];
    cbn [Match cat section_pattern subsection_pattern checklist_pattern
           pfd_alert_pattern cas_message_line_pattern] in E;
    break; subst; cbn [L list_ascii_of_string app]; eauto.
Qed.

Lemma classify_plain cur c rest :
  c <> "#"%char -> is_upper c = false ->
  classify cur (c :: rest) = classify_step cur (c :: rest).
Proof.
  intros Hc Hu.
  pose proof (structural_head (c :: rest)) as Hhead.
  unfold matches in Hhead. unfold classify. cbn [truthy negb].
  destruct (re_match section_pattern (c :: rest)),
           (re_match subsection_pattern (c :: rest)),
           (re_match checklist_pattern (c :: rest)),
           (re_match pfd_alert_pattern (c :: rest)),
           (re_match cas_message_line_pattern (c :: rest));
    try reflexivity;
    destruct (Hhead eq_refl) as (c' & rest' & [= <- <-] & [->|Hu']); congruence.
Qed.

Lemma well_formed_parts N text act :
  well_formed_step_line N text act = true ->
  exists d N' t text' act' z,
    N = d :: N' /\ forallb is_digit N = true /\
    text = t :: text' /\ is_space t = false /\ forallb not_newline text = true /\
    act = act' ++ [z] /\ forallb not_newline act = true /\
    is_space z = false /\ is_dot z = false.
Proof.
  unfold well_formed_step_line. intros H.
  repeat match type of H with
         | _ && _ = true => let H' := fresh "H" in apply andb_prop in H as [H H']
         end.
  destruct N as [|d N']; [discriminate|].
  destruct text as [|t text']; [discriminate|].
  destruct (rev act) as [|z l] eqn:Er; [discriminate|].
  apply andb_prop in H0 as [Hz1 Hz2].
  apply negb_true_iff in H3, Hz1, Hz2.
  exists d, N', t, text', (rev l), z. repeat split; auto.
  rewrite <- (rev_involutive act), Er. reflexivity.
Qed.

(** After the designed split of a well-formed line the action part matches. *)
Lemma action_part_exists act cs (k : str -> caps -> option caps) :
  forallb not_newline act = true -> 1 <= length act ->
  (forall cs', k [] cs' <> None) ->
  exec (Cat (Opt item_action) Eos) (L "... " ++ act) cs k <> None.
Proof.
  intros Hact Hlen Hk.
  apply (@exec_complete _ _ _ _ [] ((6, act) :: cs)); [|apply Hk].
  cbn [Match item_action cat].
  exists [], ((6, act) :: cs). split; [|auto].
  left. exists (L " " ++ act), cs. split; [now split|].
  exists act, cs. split.
  - exists (L " "). repeat split; auto. cbn. lia.
  - exists act, cs. split; [|split; [now rewrite app_nil_r|reflexivity]].
    exists act. repeat split; auto. now rewrite app_nil_r.
Qed.

(** When the action part is tried on a rest of two or more characters, the
    match sets group 6 to a non-empty string that ends the line. *)
Lemma action_part_result s cs m :
  2 <= length s ->
  exec (Cat (Opt item_action) Eos) s cs (fun _ cs' => Some cs') = Some m ->
  exists sp a e,
    m = (6, a) :: cs /\ s = L "..." ++ sp ++ a ++ e /\ 1 <= length a /\
    forallb is_space sp = true /\ (e = [] \/ e = [chr 10]).
Proof.
  intros Hlen H. cbn [exec] in H.
  destruct (exec item_action s cs _) as [m'|] eqn:E.
  - injection H as ->. apply exec_sound in E as (s' & cs' & HM & Hk).
    cbn [Match item_action cat] in HM. break; subst; same_tail; subst.
    destruct s' as [|c [|c' s']]; try discriminate.
    + injection Hk as <-. eexists _, _, []. repeat split; eauto.
    + destruct (N.eqb (code c) 10) eqn:Ec; [|discriminate].
      injection Hk as <-. apply code_eqb in Ec as ->.
      eexists _, _, [chr 10]. repeat split; eauto.
  - destruct s as [|c [|c' s]]; cbn in Hlen; try lia. discriminate.
Qed.

Lemma exec_cat_sound r1 r2 s cs k m :
  exec (Cat r1 r2) s cs k = Some m ->
  exists s1 cs1, Match r1 s cs s1 cs1 /\ exec r2 s1 cs1 k = Some m.
Proof. cbn [exec]. apply exec_sound. Qed.

Lemma exec_group_lazy n p min r2 s cs k :
  exec (Cat (Grp n (Rep p min false)) r2) s cs k =
  rep_lazy p min s
           (fun s' => exec r2 s' ((n, firstn (length s - length s') s) :: cs) k).
Proof. reflexivity. Qed.

Lemma app_eq_shorter (A : Type) (w1 s1 w s : list A) :
  w1 ++ s1 = w ++ s -> length w <= length w1 ->
  exists x, s = x ++ s1.
Proof.
  revert w. induction w1 as [|a w1 IH]; intros [|b w] H Hlen; cbn in *.
  - now exists [].
  - lia.
  - exists (a :: w1). now rewrite <- H.
  - injection H as -> H. apply (IH w H). lia.
Qed.

(** How [item_pattern] matches a well-formed line: group 2 is the number,
    and group 6 is set and ends with the last character of the action. *)
Lemma well_formed_match N text act :
  well_formed_step_line N text act = true ->
  exists m content a z,
    re_match item_pattern (step_line N text act) = Some m /\
    m = [(6, a); (5, content); (2, N); (1, [])] /\
    In z a /\ is_space z = false /\ is_dot z = false.
Proof.
  intros Hwf.
  destruct (well_formed_parts N text act Hwf)
    as (d & N' & t & text' & act' & z & HN & HNd & Htext & Ht & Htextnl
        & Hact & Hactnl & Hz1 & Hz2).
  assert (Hd : is_digit d = true).
  { rewrite HN in HNd. cbn in HNd. now apply andb_prop in HNd as [? _]. }
  assert (Hactlen : 1 <= length act).
  { rewrite Hact, length_app. cbn. lia. }
  assert (Hex : re_match item_pattern (step_line N text act) <> None).
  { apply (@exec_complete _ _ _ _ []
             [(6, act); (5, text ++ L " "); (2, N); (1, [])]); [|discriminate].
    unfold step_line. cbn [Match item_pattern item_action cat].
    eexists _, [(1, [])]. split.
    { exists [], []. split; [|split; reflexivity].
      exists []. repeat split; auto. }
    eexists _, [(2, N); (1, [])]. split.
    { left. eexists _, [(2, N); (1, [])]. split; [|split; reflexivity].
      exists N, [(1, [])]. split; [|split; reflexivity].
      exists N. repeat split; auto. rewrite HN. cbn. lia. }
    eexists _, _. split.
    { exists (L " "). repeat split; auto. }
    eexists ((L "... ") ++ act), ((5, text ++ L " ") :: _). split.
    { exists (text ++ L " "), [(2, N); (1, [])].
      split; [|split; [now rewrite <- app_assoc|reflexivity]].
      exists (text ++ L " "). repeat split.
      - rewrite forallb_app, Htextnl. reflexivity.
      - rewrite length_app. cbn. lia.
      - now rewrite <- app_assoc. }
    eexists [], _. split; [|auto].
    left. exists (L " " ++ act), ((5, text ++ L " ") :: [(2, N); (1, [])]).
    split; [now split|].
    exists act, ((5, text ++ L " ") :: [(2, N); (1, [])]). split.
    - exists (L " "). repeat split; auto. cbn. lia.
    - exists act, ((5, text ++ L " ") :: [(2, N); (1, [])]).
      split; [|split; [now rewrite app_nil_r|reflexivity]].
      exists act. repeat split; auto. now rewrite app_nil_r. }
  destruct (re_match item_pattern (step_line N text act)) as [m|] eqn:E;
    [clear Hex|contradiction].
  unfold re_match, item_pattern in E. cbn [cat] in E.
  (* the leading whitespace is empty *)
  apply exec_cat_sound in E as (s1 & cs1 & M1 & E).
  cbn [Match] in M1.
  destruct M1 as (ws & cs0 & (ws' & Hws & _ & Hline & ->) & Hline' & ->).
  rewrite Hline in Hline'. apply app_inv_tail in Hline' as <-.
  unfold step_line in Hline. rewrite HN in Hline. cbn [app] in Hline.
  symmetry in Hline.
  apply spaces_then_other in Hline as [-> Hs1]; [|exact Hws|cls].
  assert (Hs1' : s1 = N ++ L ". " ++ text ++ L " ... " ++ act)
    by (now rewrite HN).
  clear Hs1. subst s1.
  (* the numbering is the plain number *)
  apply exec_cat_sound in E as (s2 & cs2 & M2 & E).
  assert (Hs2 : s2 = L " " ++ text ++ L " ... " ++ act /\ cs2 = [(2, N); (1, [])]).
  { cbn [Match] in M2.
    destruct M2 as [M2|[M2|M2]].
    - destruct M2 as (s3 & cs3 & (Nd & cs4 & (Nd' & HNd' & _ & Heq & ->) & Heq' & ->)
                      & -> & ->).
      rewrite Heq in Heq'. apply app_inv_tail in Heq' as <-.
      change (N ++ "."%char :: L " " ++ text ++ L " ... " ++ act
              = Nd' ++ "."%char :: s2) in Heq.
      apply run_unique with (p := is_digit) in Heq as (-> & _ & <-); auto.
    - destruct M2 as (s3 & cs3 & (Heq & _) & _).
      rewrite HN in Heq. cbn in Heq. injection Heq as -> _. discriminate.
    - destruct M2 as (s3 & cs3 & (w & cs4 & (x & Hx & Heq & _) & _) & _).
      rewrite HN in Heq. cbn in Heq. injection Heq as -> _. cls. }
  destruct Hs2 as [-> ->].
  (* one blank, then the text *)
  apply exec_cat_sound in E as (s3 & cs3 & M3 & E).
  cbn [Match] in M3. destruct M3 as (sp & Hsp & Hsplen & Heq & ->).
  assert (Hs3 : s3 = text ++ L " ... " ++ act).
  { destruct sp as [|b sp]; [cbn in Hsplen; lia|].
    cbn in Heq. injection Heq as <- Heq.
    rewrite Htext in Heq. cbn [app] in Heq. symmetry in Heq.
    cbn in Hsp.
    apply spaces_then_other in Heq as [_ ->]; [now rewrite Htext|exact Hsp|exact Ht]. }
  subst s3. clear Heq Hsp Hsplen sp.
  (* the lazy content stops at or before the designed split *)
  rewrite exec_group_lazy in E.
  apply rep_lazy_first in E as (w & s' & Heq & Hw & Hwlen & E & Hfirst).
  assert (Hsplit : text ++ L " ... " ++ act = (text ++ L " ") ++ L "... " ++ act)
    by now rewrite <- app_assoc.
  assert (Hshort : length w <= length (text ++ L " ")).
  { destruct (Nat.le_gt_cases (length w) (length (text ++ L " ")))
      as [Hle|Hgt]; [exact Hle|exfalso].
    eapply (@action_part_exists act _ _ Hactnl Hactlen); cycle 1.
    - apply (Hfirst _ _ Hsplit); [rewrite length_app; cbn; lia|exact Hgt].
    - intros cs'. discriminate. }
  rewrite Hsplit in Heq.
  destruct (app_eq_shorter _ _ _ _ Heq Hshort) as [x Hs'].
  rewrite Hsplit, Heq, firstn_app_rest in E.
  apply action_part_result in E as (sp & a & e & -> & Hs'' & Halen & _ & He).
  2:{ rewrite Hs', !length_app. cbn. lia. }
  exists [(6, a); (5, w); (2, N); (1, [])], w, a, z.
  repeat split; auto.
  assert (Hne : a <> []) by (destruct a; [cbn in Halen; lia|discriminate]).
  destruct (exists_last Hne) as (a0 & l & ->).
  rewrite Hs', Hact in Hs''.
  destruct He as [-> | ->].
  - rewrite app_nil_r in Hs''.
    rewrite !app_assoc in Hs''. apply app_inj_tail in Hs'' as [_ <-].
    apply in_or_app. right. now left.
  - rewrite !app_assoc in Hs''. apply app_inj_tail in Hs'' as [_ ->].
    exfalso. cbn in Hz1. discriminate.
Qed.

Lemma make_step_eq lines i0 m :
  let mg := merge_continuations (skipn i0 lines) i0 i0
              (strip (group_str 5 m))
              (if otruthy (group 6 m) then strip (ostr (group 6 m)) else []) in
  let nb := numbering (group 2 m) (group 3 m) (group 4 m)
              (if otruthy (group 1 m)
               then Z.of_nat (length (ostr (group 1 m))) / 2 else 0)%Z in
  snd (make_step lines i0 m) =
  mkStep (m_instruction mg)
         (if truthy (m_action mg) then strip (sub_dots (m_action mg))
          else m_action mg)
         (conditional (m_instruction mg)) (snd nb) (fst nb) [].
Proof. unfold make_step. cbn zeta. now destruct (numbering _ _ _ _). Qed.

Lemma merge_line_action_keeps x next_line ins act :
  In x act -> In x (snd (merge_line next_line ins act)).
Proof.
  intros Hx. unfold merge_line.
  destruct (contains ellipsis next_line); [|exact Hx].
  destruct (1 <? length _); [|exact Hx].
  cbn [snd]. destruct act as [|a act]; [contradiction|].
  cbn [truthy]. apply in_or_app. now left.
Qed.

(** The lookahead only appends to the action. *)
Lemma merge_continuations_action_keeps x rest : forall j i0 ins act,
  In x act -> In x (m_action (merge_continuations rest j i0 ins act)).
Proof.
  induction rest as [|l rest IH]; intros j i0 ins act Hx;
    cbn [merge_continuations]; [exact Hx|].
  destruct (negb (truthy (rstrip l))); [now apply IH|].
  destruct (starts_new_pattern (rstrip l)); [exact Hx|].
  pose proof (@merge_line_action_keeps x (rstrip l) ins act Hx) as Hk.
  destruct (merge_line (rstrip l) ins act) as [ins' act']. now apply IH.
Qed.

Lemma sub_dots_keeps x s : In x s -> is_dot x = false -> In x (sub_dots s).
Proof.
  intros Hin Hx. induction s as [|c s IH]; [contradiction|].
  cbn [sub_dots]. destruct Hin as [->|Hin].
  - rewrite Hx. now left.
  - destruct (is_dot c); [now apply IH|right; now apply IH].
Qed.

Lemma sub_dots_no_dot s : no_dot (sub_dots s) = true.
Proof.
  induction s as [|c s IH]; [reflexivity|].
  cbn [sub_dots]. destruct (is_dot c) eqn:E; [exact IH|].
  unfold no_dot in *. cbn [forallb]. now rewrite E, IH.
Qed.

Lemma strip_no_dot s : no_dot s = true -> no_dot (strip s) = true.
Proof.
  unfold no_dot. rewrite !forallb_forall. intros H x Hx.
  now apply H, strip_incl.
Qed.

(** C6. While a checklist is open, the step built from a step line has the
    level of its numbering form, whatever the leading white space: 0 for
    plain digits, 1 for a lowercase letter, 2 for parenthesized digits.  A
    well-formed line [N. text ... ACTION] is handled as a step line, and its
    step has the number [N], level 0 and a non-empty action without any
    dot. *)
Theorem numbering_fixes_indent_level lines st c :
  current_checklist st = Some c ->
  (forall m c',
      token_at lines st = StepItem m c' ->
      let new_step := snd (make_step lines (S (i st)) m) in
      current_checklist (loop_body lines st) =
        Some (add_step_to_hierarchy c new_step (indent_level new_step)) /\
      exists f, numbering_form (line_at lines (i st)) = Some f /\
                indent_level new_step = form_level f) /\
  (forall N text act,
      well_formed_step_line N text act = true ->
      line_at lines (i st) = step_line N text act ->
      exists m,
        token_at lines st = StepItem m c /\
        let new_step := snd (make_step lines (S (i st)) m) in
        step_number new_step = Some N /\ indent_level new_step = 0%Z /\
        action new_step <> [] /\ no_dot (action new_step) = true).
Proof.
  intros Hc. split.
  - intros m c' Htok new_step.
    pose proof Htok as Hcls. unfold token_at in Hcls.
    apply classify_step_item in Hcls as [Hc' Hm].
    rewrite Hc in Hc'. injection Hc' as <-.
    split.
    { rewrite loop_body_token, Htok, on_step_eq. reflexivity. }
    unfold new_step. rewrite make_step_eq. cbn [indent_level].
    apply item_match_shape in Hm as (ws & Hws & _ & Hform).
    destruct Hform as [(N & rest & -> & HN & Hlen & -> & -> & ->)
                      |[(N & rest & -> & HN & Hlen & -> & -> & ->)
                       |(x & rest & -> & Hx & -> & -> & ->)]].
    + exists PlainDigits. destruct N as [|d N]; [cbn in Hlen; lia|].
      cbn in HN. apply andb_prop in HN as [Hd _].
      unfold numbering_form. cbn [app].
      rewrite lstrip_spaces; [|exact Hws|cls]. rewrite Hd. split; reflexivity.
    + exists ParenthesizedDigits. destruct N as [|d N]; [cbn in Hlen; lia|].
      unfold numbering_form. rewrite lstrip_spaces; [|exact Hws|reflexivity].
      split; reflexivity.
    + exists LowercaseLetter.
      unfold numbering_form. rewrite lstrip_spaces; [|exact Hws|cls].
      assert (Hd : is_digit x = false) by cls. rewrite Hd, Hx.
      split; reflexivity.
  - intros N text act Hwf Hline.
    destruct (well_formed_match N text act Hwf) as (m & content & a & z & Hm & -> & Hz & Hz1 & Hz2).
    destruct (well_formed_parts N text act Hwf)
      as (d & N' & _ & _ & _ & _ & HN & HNd & _).
    assert (Hd : is_digit d = true).
    { rewrite HN in HNd. cbn in HNd. now apply andb_prop in HNd as [? _]. }
    eexists. split.
    { unfold token_at. rewrite Hline, Hc.
      assert (Hhead : step_line N text act = d :: N' ++ L ". " ++ text ++ L " ... " ++ act)
        by (unfold step_line; now rewrite HN).
      rewrite Hhead at 1. rewrite classify_plain; [|intros ->; discriminate|cls].
      rewrite <- Hhead. unfold classify_step. rewrite Hm. reflexivity. }
    cbn zeta. rewrite make_step_eq.
    cbn [step_number indent_level action group Nat.eqb otruthy ostr].
    assert (HNt : truthy N = true) by now rewrite HN.
    unfold numbering. cbn [otruthy]. rewrite HNt. cbn [fst snd].
    split; [reflexivity|]. split; [reflexivity|].
    assert (Ha : truthy a = true) by (destruct a; [contradiction|reflexivity]).
    rewrite Ha.
    match goal with
    | |- context [merge_continuations ?r ?j ?k ?ins ?act0] =>
        pose proof (@merge_continuations_action_keeps z r j k ins act0) as Hkeep;
        set (mg := merge_continuations r j k ins act0) in *
    end.
    specialize (Hkeep (@strip_keeps z a Hz Hz1)).
    assert (Hmg : truthy (m_action mg) = true)
      by (destruct (m_action mg); [contradiction|reflexivity]).
    rewrite Hmg. split.
    + apply (@in_not_nil _ z), strip_keeps; [|exact Hz1].
      now apply sub_dots_keeps.
    + apply strip_no_dot, sub_dots_no_dot.
Qed.

(** The example of the specification. *)
Lemma engine_fire_parse :
  parse_checklist engine_fire_lines = [engine_fire_checklist].
Proof. vm_compute. reflexivity. Qed.

(** C2 at the line [OIL PRESS], with a checklist open. *)
Lemma cas_message_is_no_step_item_witness :
  classify (Some engine_fire_checklist) (L "OIL PRESS")
    = CasMessage [(1, L "OIL PRESS")] /\
  re_match item_pattern (L "OIL PRESS") = None.
Proof.
  split; [vm_compute; reflexivity|].
  apply (@cas_message_is_no_step_item (Some engine_fire_checklist)
           (L "OIL PRESS") [(1, L "OIL PRESS")]).
  vm_compute. reflexivity.
Defined.

(** C3 at the example of the specification. *)
Lemma child_indent_is_parent_plus_one_witness :
  In engine_fire_checklist (parse_checklist engine_fire_lines) /\
  In fuel_selector_step (all_steps (steps engine_fire_checklist)) /\
  In mixture_step (sub_steps fuel_selector_step) /\
  indent_level mixture_step = (indent_level fuel_selector_step + 1)%Z.
Proof.
  assert (H1 : In engine_fire_checklist (parse_checklist engine_fire_lines))
    by (vm_compute; auto).
  assert (H2 : In fuel_selector_step (all_steps (steps engine_fire_checklist)))
    by (vm_compute; auto).
  assert (H3 : In mixture_step (sub_steps fuel_selector_step))
    by (vm_compute; auto).
  split; [exact H1|]. split; [exact H2|]. split; [exact H3|].
  exact (@child_indent_is_parent_plus_one engine_fire_lines engine_fire_checklist
           fuel_selector_step mixture_step H1 H2 H3).
Defined.

(** C10 at a section header that follows a subsection header. *)
Lemma section_header_keeps_subsection_witness :
  token_at section_after_subsection_lines
           (scan 2 section_after_subsection_lines init_state)
    = SectionHeader [(1, L "EMERGENCY")] /\
  current_subsection
    (loop_body section_after_subsection_lines
               (scan 2 section_after_subsection_lines init_state))
    = Some (L "Preflight") /\
  current_section
    (loop_body section_after_subsection_lines
               (scan 2 section_after_subsection_lines init_state))
    = Some (L "EMERGENCY").
Proof.
  assert (H : token_at section_after_subsection_lines
                       (scan 2 section_after_subsection_lines init_state)
              = SectionHeader [(1, L "EMERGENCY")])
    by (vm_compute; reflexivity).
  split; [exact H|].
  destruct (@section_header_keeps_subsection section_after_subsection_lines
              (scan 2 section_after_subsection_lines init_state)
              [(1, L "EMERGENCY")] H) as [Hst _].
  rewrite Hst. split; vm_compute; reflexivity.
Defined.

(** C4 at the first title after a CAS line. *)
Lemma title_takes_and_clears_pending_witness :
  Reachable cas_then_two_checklists_lines
            (scan 1 cas_then_two_checklists_lines init_state) /\
  token_at cas_then_two_checklists_lines
           (scan 1 cas_then_two_checklists_lines init_state)
    = ChecklistTitle [(1, L "A")] /\
  pending_cas (loop_body cas_then_two_checklists_lines
                         (scan 1 cas_then_two_checklists_lines init_state))
    = None.
Proof.
  assert (H1 : Reachable cas_then_two_checklists_lines
                         (scan 1 cas_then_two_checklists_lines init_state))
    by (apply scan_reachable; constructor).
  assert (H2 : token_at cas_then_two_checklists_lines
                        (scan 1 cas_then_two_checklists_lines init_state)
               = ChecklistTitle [(1, L "A")])
    by (vm_compute; reflexivity).
  split; [exact H1|]. split; [exact H2|].
  exact (proj1 (proj1 (proj2 (proj2
           (@title_takes_and_clears_pending cas_then_two_checklists_lines
              (scan 1 cas_then_two_checklists_lines init_state)
              [(1, L "A")] H1 H2))))).
Defined.

(** C6 at the first step line of the example of the specification. *)
Lemma numbering_fixes_indent_level_witness :
  current_checklist (scan 2 engine_fire_lines init_state)
    = Some engine_fire_opened /\
  exists m,
    token_at engine_fire_lines (scan 2 engine_fire_lines init_state)
      = StepItem m engine_fire_opened /\
    step_number (snd (make_step engine_fire_lines 3 m)) = Some (L "1") /\
    indent_level (snd (make_step engine_fire_lines 3 m)) = 0%Z.
Proof.
  assert (H : current_checklist (scan 2 engine_fire_lines init_state)
              = Some engine_fire_opened)
    by (vm_compute; reflexivity).
  split; [exact H|].
  destruct (proj2 (@numbering_fixes_indent_level engine_fire_lines
                     (scan 2 engine_fire_lines init_state)
                     engine_fire_opened H)
                  (L "1") (L "Fuel Selector") (L "OFF"))
    as (m & Htok & Hnum & Hlvl & _).
  - vm_compute. reflexivity.
  - vm_compute. reflexivity.
  - exists m. split; [exact Htok|]. split; [exact Hnum|exact Hlvl].
Defined.

(** ** C4 as stated fails: a pending alert that is the empty string stays *)

(** C4, counterexample. With a PFD alert whose quoted text is blank ahead of
    two checklists, the pending alert is the empty string when the first
    title is handled; it is still pending afterwards, and the second
    checklist takes it as well. *)
Lemma empty_pfd_alert_is_not_cleared :
  is_checklist_title
    (token_at blank_pfd_alert_lines (scan 1 blank_pfd_alert_lines init_state))
    = true /\
  pending_pfd_alert (scan 1 blank_pfd_alert_lines init_state) = Some [] /\
  pending_pfd_alert
    (loop_body blank_pfd_alert_lines (scan 1 blank_pfd_alert_lines init_state))
    = Some [] /\
  map (fun c => (title c, alert_message c)) (parse_checklist blank_pfd_alert_lines)
    = [(L "A", Some []); (L "B", Some [])].
Proof. vm_compute. repeat split; reflexivity. Qed.

(** ** C1: the scan position after a continuation that follows a blank line *)

(** Without a blank line among the lines looked at, the two positions
    advance together. *)
Lemma merge_continuations_no_blank rest : forall j ins act,
  Forall (fun l => truthy (rstrip l) = true) rest ->
  m_i (merge_continuations rest j j ins act)
  = m_j (merge_continuations rest j j ins act).
Proof.
  induction rest as [|l rest IH]; intros j ins act Hall;
    cbn [merge_continuations]; [reflexivity|].
  inversion Hall as [|? ? Hl Hrest]; subst. rewrite Hl. cbn [negb].
  destruct (starts_new_pattern (rstrip l)); [reflexivity|].
  destruct (merge_line (rstrip l) ins act) as [ins' act']. now apply IH.
Qed.

(** C1, on the code. After the step line of [###T / 1. A ... B / (blank) /
    more] the lookahead has folded line 3 into the instruction and stopped at
    index 4, but the scan position is 3: the folded line is classified again
    by the next iteration. *)
Theorem continuation_after_blank_is_rescanned :
  let lines := blank_then_continuation_lines in
  let st := scan 1 lines init_state in
  i st = 1 /\ is_step_item (token_at lines st) = true /\
  let mg := merge_continuations (skipn 2 lines) 2 2 (L "A") (L "B") in
  m_instruction mg = L "A more" /\ m_j mg = 4 /\ m_i mg = 3 /\
  let st' := loop_body lines st in
  option_map (fun c => map instruction (steps c)) (current_checklist st')
    = Some [L "A more"] /\
  i st' = 3 /\ line_at lines 3 = L "more" /\ token_at lines st' = Other.
Proof. vm_compute. repeat split; reflexivity. Qed.

(** ** C5: the repeat of a CAS line that carries its qualifier *)

(** The sibling path: when the CAS line has no qualifier and the next line
    is its repeat, the lookahead passes over the repeat and keeps the type. *)
Lemma unqualified_cas_repeat_is_skipped (lines : list str) st line name :
  contains Caution line = false -> contains Advisory line = false ->
  i st < length lines ->
  strip (nth (i st) lines []) = name ->
  cas_lookahead lines st line name = (pending_cas_type st, S (i st)).
Proof.
  intros Hc Ha Hlt Hnext. unfold cas_lookahead. rewrite Hc, Ha.
  apply Nat.ltb_lt in Hlt. rewrite Hlt, Hnext.
  unfold str_eqb. now destruct (list_eq_dec ascii_dec name name).
Qed.

(** C5, on the code. The CAS line [OIL PRESS Caution] sets the open
    checklist's CAS name and type and leaves the scan on the next line; that
    line, the repeat [OIL PRESS], is then handled as a CAS message of its own
    and replaces the type by none. *)
Theorem repeat_of_qualified_cas_is_handled_again :
  let lines := qualified_cas_repeated_lines in
  let st := scan 3 lines init_state in
  i st = 3 /\
  option_map (fun c => (cas c, cas_type c)) (current_checklist st)
    = Some (Some (L "OIL PRESS"), Some (L "Caution")) /\
  token_at lines st = CasMessage [(1, L "OIL PRESS")] /\
  option_map (fun c => (cas c, cas_type c))
             (current_checklist (loop_body lines st))
    = Some (Some (L "OIL PRESS"), None) /\
  map (fun c => (cas c, cas_type c)) (parse_checklist lines)
    = [(Some (L "OIL PRESS"), None)].
Proof. vm_compute. repeat split; reflexivity. Qed.

(** ** C7: what the validator reports *)

Lemma count_where_cons (A : Type) (f : A -> bool) x l :
  count_where f (x :: l) = b2n (f x) + count_where f l.
Proof. unfold count_where. cbn [filter]. now destruct (f x). Qed.

Lemma count_where_app (A : Type) (f : A -> bool) l1 l2 :
  count_where f (l1 ++ l2) = count_where f l1 + count_where f l2.
Proof. unfold count_where. now rewrite filter_app, length_app. Qed.

Lemma validate_step_counts s :
  validate_step s =
  count_where missing_instruction (step_and_below s)
  + count_where inconsistent_indentation (step_and_below s).
Proof.
  induction s as [ins act cond lvl num subs IH] using ChecklistStep_tree_ind.
  cbn [validate_step step_and_below]. rewrite !count_where_cons.
  assert (Hsubs :
    fold_right (fun sub n => validate_step sub + n) 0 subs =
    count_where missing_instruction (flat_map step_and_below subs)
    + count_where inconsistent_indentation (flat_map step_and_below subs)).
  { induction IH as [|x subs Hx _ IHsubs]; [reflexivity|].
    cbn [fold_right flat_map]. rewrite !count_where_app, Hx, IHsubs. lia. }
  rewrite Hsubs.
  set (cm := count_where missing_instruction _).
  set (ci := count_where inconsistent_indentation _).
  unfold missing_instruction, inconsistent_indentation.
  cbn [instruction sub_steps indent_level]. lia.
Qed.

(** C7, as the code has it. The number of diagnostics of [validate_steps] is
    the number of reachable steps without an instruction plus the number of
    reachable steps that have a child whose level is not greater than their
    own; a step whose children are all deeper, by whatever amount, adds
    nothing for its indentation.  The validator is a function of the tree
    to a count: it has no way to change the tree. *)
Theorem validate_steps_counts steps checklist_title :
  validate_steps steps checklist_title =
    count_where missing_instruction (all_steps steps)
    + count_where inconsistent_indentation (all_steps steps) /\
  forall step,
    inconsistent_indentation step = true <->
    exists sub, In sub (sub_steps step) /\
                (indent_level sub <= indent_level step)%Z.
Proof.
  split.
  - unfold validate_steps, all_steps.
    induction steps as [|s steps IH]; [reflexivity|].
    cbn [fold_right flat_map]. rewrite !count_where_app, IH, validate_step_counts.
    lia.
  - intros step. unfold inconsistent_indentation. rewrite existsb_exists.
    split; intros (sub & Hin & Hle); exists sub; (split; [exact Hin|]).
    + now apply Z.leb_le.
    + now apply Z.leb_le.
Qed.

(** C7, counterexample. A step of level 0 whose only child has level 2 is
    not reported. *)
Lemma deeper_child_is_not_reported :
  validate_steps [step_with_deeper_child] (L "ENGINE FIRE") = 0 /\
  exists sub,
    In sub (sub_steps step_with_deeper_child) /\
    indent_level sub <> (indent_level step_with_deeper_child + 1)%Z.
Proof.
  split; [reflexivity|].
  eexists. split; [left; reflexivity|]. cbn. discriminate.
Qed.

(** * Further properties of the code *)

(** ** The scan position stays within the input *)

Lemma cas_lookahead_bounded (lines : list str) st line name :
  i st <= length lines -> snd (cas_lookahead lines st line name) <= length lines.
Proof.
  intros Hi. unfold cas_lookahead.
  destruct (contains Caution line); [exact Hi|].
  destruct (contains Advisory line); [exact Hi|].
  destruct (i st <? length lines) eqn:E; [|exact Hi].
  apply Nat.ltb_lt in E.
  repeat match goal with
         | |- context [if ?b then _ else _] => destruct b
         end; cbn [snd]; lia.
Qed.

Lemma loop_body_bounded (lines : list str) st :
  i st < length lines -> i (loop_body lines st) <= length lines.
Proof.
  intros Hlt. rewrite loop_body_token.
  destruct (token_at lines st) as [|m|m|m|m|m|m c|]; cbn [on_section on_subsection advance i];
    try lia.
  - rewrite on_title_i. cbn. lia.
  - rewrite on_pfd_i. cbn. lia.
  - unfold on_cas.
    pose proof (@cas_lookahead_bounded lines (advance st) (line_at lines (i st))
                  (strip (group_str 1 m))) as H.
    destruct (cas_lookahead _ _ _ _) as [ty i']. cbn [snd advance i] in H.
    destruct (current_checklist (advance st)); cbn [i]; apply H; lia.
  - rewrite on_step_eq. cbn [i advance]. rewrite make_step_i.
    match goal with
    | |- context [merge_continuations ?r ?j ?k ?a ?b] =>
        pose proof (merge_continuations_bounds r j k a b) as H
    end.
    cbn zeta in H. rewrite length_skipn in H. lia.
Qed.

Lemma reachable_bounded (lines : list str) st :
  Reachable lines st -> i st <= length lines.
Proof.
  induction 1 as [|st Hst IH Hlt]; [cbn; lia|]. now apply loop_body_bounded.
Qed.

(** X1. The scan position never passes the end of the input; the loop is
    over after at most [len(lines)] iterations, with the position exactly at
    the end, and running it for longer changes nothing. *)
Theorem scan_stops_at_the_end (lines : list str) :
  (forall fuel, i (scan fuel lines init_state) <= length lines) /\
  i (scan (length lines) lines init_state) = length lines /\
  (forall fuel, length lines <= fuel ->
                scan fuel lines init_state = scan (length lines) lines init_state).
Proof.
  assert (Hb : forall fuel, i (scan fuel lines init_state) <= length lines).
  { intros fuel. apply reachable_bounded, scan_reachable. constructor. }
  assert (He : length lines <= i (scan (length lines) lines init_state))
    by (apply scan_exhausts; lia).
  split; [exact Hb|]. split.
  - specialize (Hb (length lines)). lia.
  - intros fuel Hfuel.
    replace fuel with (length lines + (fuel - length lines)) by lia.
    rewrite scan_plus. now apply scan_stable.
Qed.

(** ** No more checklists than title lines *)

Lemma classify_checklist_title cur line m :
  classify cur line = ChecklistTitle m ->
  matches checklist_pattern line = true.
Proof.
  unfold classify, classify_step, matches.
  repeat match goal with
         | |- context [match ?x with _ => _ end] => destruct x eqn:?
         end; try discriminate; reflexivity.
Qed.

Lemma count_where_firstn_le (A : Type) (f : A -> bool) l : forall n k,
  n <= k -> count_where f (firstn n l) <= count_where f (firstn k l).
Proof.
  induction l as [|x l IH]; intros n k Hnk.
  - now rewrite !firstn_nil.
  - destruct n as [|n]; [cbn; lia|].
    destruct k as [|k]; [lia|].
    cbn [firstn]. rewrite !count_where_cons.
    specialize (IH n k). lia.
Qed.

Lemma count_where_firstn_succ (A : Type) (f : A -> bool) d l : forall n,
  n < length l ->
  count_where f (firstn (S n) l) = count_where f (firstn n l) + b2n (f (nth n l d)).
Proof.
  induction l as [|x l IH]; intros n Hn; [cbn in Hn; lia|].
  destruct n as [|n].
  - cbn [firstn nth]. rewrite count_where_cons. cbn. lia.
  - cbn [length] in Hn.
    change (firstn (S (S n)) (x :: l)) with (x :: firstn (S n) l).
    change (firstn (S n) (x :: l)) with (x :: firstn n l).
    rewrite !count_where_cons. cbn [nth]. rewrite IH; lia.
Qed.

Lemma append_current_length st :
  length (append_current st)
  <= length (checklists st) + length (opt_list (current_checklist st)).
Proof.
  unfold append_current. destruct (current_checklist st) as [c|]; cbn; [|lia].
  destruct (has_steps c); [rewrite length_app; cbn|]; lia.
Qed.

(** The open checklist stays open in an iteration that handles no title. *)
Lemma loop_body_same_open lines st :
  is_checklist_title (token_at lines st) = false ->
  checklists (loop_body lines st) = checklists st /\
  length (opt_list (current_checklist (loop_body lines st)))
  = length (opt_list (current_checklist st)).
Proof.
  intros Hno. split.
  - now rewrite loop_body_checklists, Hno.
  - rewrite loop_body_token.
    destruct (token_at lines st) as [|m|m|m|m|m|m c|] eqn:E; cbn; try reflexivity.
    + discriminate.
    + unfold on_pfd. cbn. now destruct (current_checklist st).
    + unfold on_cas. destruct (cas_lookahead _ _ _ _). cbn.
      now destruct (current_checklist st).
    + rewrite on_step_eq. cbn. unfold token_at in E.
      apply classify_step_item in E as [-> _]. reflexivity.
Qed.

Lemma reachable_checklists_bounded (lines : list str) st :
  Reachable lines st ->
  length (checklists st) + length (opt_list (current_checklist st))
  <= count_where (fun l => matches checklist_pattern (rstrip l))
                 (firstn (i st) lines).
Proof.
  induction 1 as [|st Hst IH Hlt]; [cbn; lia|].
  destruct (is_checklist_title (token_at lines st)) eqn:E.
  - destruct (token_at lines st) as [|m|m|m|m|m|m c|] eqn:Et; try discriminate.
    rewrite loop_body_token, Et.
    assert (Hi : i (on_title (advance st) m) = S (i st)) by now rewrite on_title_i.
    rewrite Hi, (count_where_firstn_succ _ [] _ Hlt).
    apply classify_checklist_title in Et. unfold line_at in Et. cbn beta.
    match goal with
    | |- context [b2n ?b] => replace b with true by (symmetry; exact Et)
    end.
    rewrite on_title_current. cbn [opt_list length].
    assert (Hc : checklists (on_title (advance st) m) = append_current st).
    { unfold on_title. now destruct (_ || _). }
    rewrite Hc. cbn [b2n]. apply Nat.add_le_mono_r.
    exact (Nat.le_trans _ _ _ (append_current_length st) IH).
  - destruct (loop_body_same_open lines st E) as [-> ->].
    pose proof (loop_body_advances lines st) as Hadv.
    pose proof (@count_where_firstn_le _
                  (fun l => matches checklist_pattern (rstrip l)) lines
                  (i st) (i (loop_body lines st))).
    lia.
Qed.

Lemma count_where_firstn_all (A : Type) (f : A -> bool) l n :
  count_where f (firstn n l) <= count_where f l.
Proof.
  rewrite <- (firstn_all l) at 2.
  destruct (Nat.le_gt_cases n (length l)) as [H|H].
  - now apply count_where_firstn_le.
  - rewrite (firstn_all2 l) by lia. now rewrite firstn_all.
Qed.

(** X2. A parse produces at most one checklist per line that matches the
    title pattern; without such a line it produces nothing, whatever else
    the input holds. *)
Theorem at_most_one_checklist_per_title_line (lines : list str) :
  length (parse_checklist lines) <= title_lines lines /\
  (title_lines lines = 0 -> parse_checklist lines = []).
Proof.
  assert (H : length (parse_checklist lines) <= title_lines lines).
  { destruct (parse_checklist_reachable lines) as (st & Hst & _ & ->).
    pose proof (append_current_length st).
    pose proof (reachable_checklists_bounded Hst).
    pose proof (@count_where_firstn_all _
                  (fun l => matches checklist_pattern (rstrip l)) lines (i st)).
    unfold title_lines. lia. }
  split; [exact H|].
  intros H0. rewrite H0 in H. destruct (parse_checklist lines); [reflexivity|].
  cbn in H. lia.
Qed.

(** ** The six line patterns exclude one another *)

Lemma section_shape line :
  matches section_pattern line = true ->
  exists c rest, line = "#"%char :: c :: rest /\ is_upper c = true.
Proof.
  unfold matches. destruct (re_match section_pattern line) as [m|] eqn:E;
    [intros _|discriminate].
  apply re_match_sound in E as [s' E]. cbn [Match cat section_pattern] in E.
  break; subst; eexists _, _; (split; [reflexivity|assumption]).
Qed.

Lemma subsection_shape line :
  matches subsection_pattern line = true ->
  exists c rest, line = "#"%char :: "#"%char :: c :: rest /\ is_upper c = true.
Proof.
  unfold matches. destruct (re_match subsection_pattern line) as [m|] eqn:E;
    [intros _|discriminate].
  apply re_match_sound in E as [s' E]. cbn [Match cat subsection_pattern] in E.
  break; subst; cbn [L list_ascii_of_string app];
    eexists _, _; (split; [reflexivity|assumption]).
Qed.

Lemma checklist_shape line :
  matches checklist_pattern line = true ->
  exists rest, line = "#"%char :: "#"%char :: "#"%char :: rest.
Proof.
  unfold matches. destruct (re_match checklist_pattern line) as [m|] eqn:E;
    [intros _|discriminate].
  apply re_match_sound in E as [s' E]. cbn [Match cat checklist_pattern] in E.
  break; subst; cbn [L list_ascii_of_string app]; eexists; reflexivity.
Qed.

Lemma pfd_shape line :
  matches pfd_alert_pattern line = true ->
  exists rest, line = L "PFD Alerts Window: " ++ rest.
Proof.
  unfold matches. destruct (re_match pfd_alert_pattern line) as [m|] eqn:E;
    [intros _|discriminate].
  apply re_match_sound in E as [s' E]. cbn [Match cat pfd_alert_pattern] in E.
  break; subst; eexists; reflexivity.
Qed.

Lemma item_shape line :
  matches item_pattern line = true ->
  exists c rest, line = c :: rest /\ is_upper c = false /\ c <> "#"%char.
Proof.
  unfold matches. destruct (re_match item_pattern line) as [m|] eqn:E;
    [intros _|discriminate].
  apply item_match_shape in E as (ws & Hws & _ & H).
  destruct ws as [|c ws].
  - destruct H as [(N & rest & -> & HN & Hlen & _)
                  |[(N & rest & -> & _)|(c & rest & -> & Hc & _)]].
    + destruct N as [|d N]; [cbn in Hlen; lia|].
      cbn in HN. apply andb_prop in HN as [Hd _].
      exists d, (N ++ "."%char :: rest).
      repeat split; [cls|intros ->; discriminate].
    + eexists _, _. repeat split; discriminate.
    + exists c, ("."%char :: rest). repeat split; [cls|intros ->; discriminate].
  - cbn in Hws. apply andb_prop in Hws as [Hc _].
    assert (Hu : is_upper c = false /\ c <> "#"%char)
      by (split; [cls|intros ->; discriminate]).
    destruct H as [(N & rest & -> & _)|[(N & rest & -> & _)|(x & rest & -> & _)]];
      eexists _, _; (split; [reflexivity|exact Hu]).
Qed.

Lemma cas_shape line :
  matches cas_message_line_pattern line = true ->
  exists c rest, line = c :: rest /\ is_upper c = true.
Proof.
  unfold matches.
  destruct (re_match cas_message_line_pattern line) as [m|] eqn:E;
    [intros _|discriminate].
  apply cas_match_shape in E as (c & w & rest & Hc & -> & _). eauto.
Qed.

(** A PFD alert line is no CAS line: after [PFD A] comes a lowercase
    letter, where a CAS line would go on in capitals, end, or carry one of
    its two qualifiers. *)
Lemma pfd_is_no_cas line :
  matches pfd_alert_pattern line = true ->
  matches cas_message_line_pattern line = false.
Proof.
  intros Hp. apply pfd_shape in Hp as [rest ->].
  unfold matches.
  destruct (re_match cas_message_line_pattern _) as [m|] eqn:E; [|reflexivity].
  exfalso. apply re_match_sound in E as [s' E].
  cbn [Match cat cas_message_line_pattern] in E.
  cbn [L list_ascii_of_string app] in E.
  destruct E as (s1 & cs1 & (w & cs2 & (s2 & cs3 & (x & Hx & Hl & _) & (w0 & Hw0 & Hlen & -> & _)) & _) & Htail).
  injection Hl as <- Hl.
  destruct w0 as [|a0 [|a1 [|a2 [|a3 [|a4 w0]]]]]; cbn in Hlen, Hl, Hw0; try lia;
    injection Hl as; subst;
    destruct Htail as (s3 & cs4 & [[(s4 & cs5 & (sp & Hsp & Hsplen & Hs1 & _) & Hs4 & _)|[Hs1 _]]|[Hs1 _]] & _ & _ & Hend);
    subst; cbn [L list_ascii_of_string app] in *;
    try (destruct Hend as [Hend|Hend]; discriminate);
    try discriminate.
  all: try (destruct sp as [|b0 [|b1 sp]]; cbn in Hsplen, Hs1, Hsp; try lia;
            try discriminate; injection Hs1 as; subst; discriminate).
  all: try (repeat (apply andb_prop in Hw0 as [? Hw0]); discriminate).
Qed.

(** X3. No line matches two of the six patterns: the order in which the
    loop and the lookahead test them decides nothing. *)
Theorem line_patterns_exclude_one_another line :
  patterns_matching line <= 1.
Proof.
  unfold patterns_matching.
  pose proof (pfd_is_no_cas line) as Hpc.
  destruct (matches section_pattern line) eqn:H1;
    destruct (matches subsection_pattern line) eqn:H2;
    destruct (matches checklist_pattern line) eqn:H3;
    destruct (matches pfd_alert_pattern line) eqn:H4;
    destruct (matches cas_message_line_pattern line) eqn:H5;
    destruct (matches item_pattern line) eqn:H6;
    cbn [b2n Nat.add]; try lia; exfalso;
    try (specialize (Hpc eq_refl); discriminate);
    try apply section_shape in H1 as (c1 & r1 & E1 & U1);
    try apply subsection_shape in H2 as (c2 & r2 & E2 & U2);
    try apply checklist_shape in H3 as (r3 & E3);
    try apply pfd_shape in H4 as (r4 & E4);
    try apply cas_shape in H5 as (c5 & r5 & E5 & U5);
    try apply item_shape in H6 as (c6 & r6 & E6 & U6 & N6);
    cbn [L list_ascii_of_string app] in *; subst;
    repeat match goal with
           | H : _ :: _ = _ :: _ |- _ => injection H as; subst
           end;
    try discriminate; try congruence.
Qed.

(** ** Where the hierarchy builder puts a step *)

Section SearchOrder.
Variable A : Type.
Variable f : A -> option A.

Lemma try_last_first_none l :
  try_last_first f l = None <-> Forall (fun x => f x = None) l.
Proof.
  induction l as [|x l IH]; cbn [try_last_first].
  - split; [constructor|reflexivity].
  - destruct (try_last_first f l) as [l'|] eqn:E.
    + split; [discriminate|]. intros H. inversion H; subst.
      apply IH in H3. discriminate.
    + destruct (f x) eqn:Ex.
      * split; [discriminate|]. intros H. inversion H; congruence.
      * split; [|reflexivity]. intros _. constructor; [exact Ex|].
        now apply IH.
Qed.

(** The element rewritten is the last one [f] accepts. *)
Lemma try_last_first_last l l' :
  try_last_first f l = Some l' ->
  exists pre x x' post,
    l = pre ++ x :: post /\ l' = pre ++ x' :: post /\ f x = Some x' /\
    Forall (fun y => f y = None) post.
Proof.
  revert l'. induction l as [|a l IH]; intros l' H; cbn in H; [discriminate|].
  destruct (try_last_first f l) as [l''|] eqn:E.
  - injection H as <-.
    destruct (IH _ eq_refl) as (pre & x & x' & post & -> & -> & Hf & Hpost).
    now exists (a :: pre), x, x', post.
  - destruct (f a) as [a'|] eqn:Ea; [|discriminate].
    injection H as <-. exists [], a, a', l. repeat split; auto.
    now apply try_last_first_none.
Qed.
End SearchOrder.

Lemma find_parent_none_iff new_step target p :
  find_parent_and_add_step p new_step target = None <->
  Forall (fun s => candidate_parent target s = false) (step_and_below p).
Proof.
  induction p as [ins act cond lvl num subs IH] using ChecklistStep_tree_ind.
  cbn [find_parent_and_add_step step_and_below].
  rewrite Forall_cons_iff. unfold candidate_parent at 1. cbn [indent_level].
  destruct (lvl =? target - 1)%Z.
  - split; [discriminate|]. intros [H _]. discriminate.
  - assert (Hsubs :
      try_last_first (fun sub => find_parent_and_add_step sub new_step target) subs
        = None <->
      Forall (fun s => candidate_parent target s = false)
             (flat_map step_and_below subs)).
    { rewrite try_last_first_none. rewrite Forall_flat_map.
      induction IH as [|x subs Hx _ IHsubs].
      - split; constructor.
      - rewrite !Forall_cons_iff, Hx, IHsubs. reflexivity. }
    destruct (try_last_first _ subs) eqn:E.
    + split; [discriminate|]. intros [_ H]. apply Hsubs in H. discriminate.
    + split; [|reflexivity]. intros _. split; [reflexivity|]. now apply Hsubs.
Qed.

(** X4. The search for a parent fails exactly when neither the step it
    starts from nor any step below it has the level just above the
    target. *)
Theorem find_parent_fails_without_candidate p new_step target :
  find_parent_and_add_step p new_step target = None <->
  forall s, In s (step_and_below p) -> indent_level s <> (target - 1)%Z.
Proof.
  rewrite find_parent_none_iff, Forall_forall.
  split; intros H s Hs; specialize (H s Hs); unfold candidate_parent in *.
  - now apply Z.eqb_neq.
  - now apply Z.eqb_neq.
Qed.

Ltac flatten_apps :=
  repeat progress
    (repeat (rewrite map_app || rewrite flat_map_app || rewrite <- app_assoc
             || rewrite <- app_comm_cons);
     cbn [map flat_map app]).

Lemma forest_inserted new_step target l l' :
  Forall (fun x => forall x',
              find_parent_and_add_step x new_step target = Some x' ->
              inserted_after_last_candidate target new_step
                (step_and_below x) (step_and_below x')) l ->
  try_last_first (fun s => find_parent_and_add_step s new_step target) l = Some l' ->
  inserted_after_last_candidate target new_step (all_steps l) (all_steps l').
Proof.
  intros IH H.
  apply try_last_first_last in H as (pre & x & x' & post & -> & -> & Hx & Hpost).
  apply Forall_app in IH as [_ IH]. inversion IH as [|? ? IHx _]; subst.
  destruct (IHx _ Hx) as (front & parent & rest & Heq & Hcand & Hrest & Hmap).
  exists (all_steps pre ++ front), parent, (rest ++ all_steps post).
  split; [|split; [exact Hcand|split]].
  - unfold all_steps in *. flatten_apps. rewrite Heq. flatten_apps. reflexivity.
  - apply Forall_app. split; [exact Hrest|].
    unfold all_steps. apply Forall_flat_map.
    eapply Forall_impl; [|exact Hpost].
    intros y Hy. now apply find_parent_none_iff in Hy.
  - unfold all_steps in *. flatten_apps. rewrite Hmap. flatten_apps. reflexivity.
Qed.

Lemma find_parent_inserted new_step target p : forall p',
  find_parent_and_add_step p new_step target = Some p' ->
  inserted_after_last_candidate target new_step
    (step_and_below p) (step_and_below p').
Proof.
  induction p as [ins act cond lvl num subs IH] using ChecklistStep_tree_ind.
  intros p' H. cbn [find_parent_and_add_step] in H.
  destruct (lvl =? target - 1)%Z eqn:E.
  - injection H as <-.
    exists [], (mkStep ins act cond lvl num subs), [].
    split; [|split; [exact E|split; [constructor|]]].
    + cbn [step_and_below sub_steps app]. unfold all_steps.
      now rewrite app_nil_r.
    + cbn [step_and_below sub_steps]. unfold all_steps. flatten_apps.
      cbn [step_and_below]. now rewrite !app_nil_r.
  - destruct (try_last_first _ subs) as [subs'|] eqn:Et; [|discriminate].
    injection H as <-.
    destruct (forest_inserted IH Et) as (front & parent & rest & Heq & Hcand & Hrest & Hmap).
    exists (mkStep ins act cond lvl num subs :: front), parent, rest.
    split; [|split; [exact Hcand|split; [exact Hrest|]]].
    + cbn [step_and_below]. fold (all_steps subs). rewrite Heq. reflexivity.
    + cbn [step_and_below]. fold (all_steps subs').
      cbn [map app]. rewrite Hmap. reflexivity.
Qed.

Lemma hierarchy_ok_sub s sub :
  hierarchy_ok s = true -> In sub (sub_steps s) ->
  hierarchy_ok sub = true /\ indent_level sub = (indent_level s + 1)%Z.
Proof.
  intros H Hin. rewrite hierarchy_ok_eq, forallb_forall in H.
  apply H in Hin. apply andb_prop in Hin as [Hl Hs].
  split; [exact Hs|]. now apply Z.eqb_eq.
Qed.

(** Below a well-formed step every step is deeper, and well formed. *)
Lemma below_is_deeper s :
  hierarchy_ok s = true ->
  forall d, In d (all_steps (sub_steps s)) ->
  (indent_level s < indent_level d)%Z /\ hierarchy_ok d = true.
Proof.
  induction s as [ins act cond lvl num subs IH] using ChecklistStep_tree_ind.
  intros Hok d Hd. cbn [sub_steps indent_level] in *.
  unfold all_steps in Hd. apply in_flat_map in Hd as (x & Hx & Hd).
  destruct (@hierarchy_ok_sub (mkStep ins act cond lvl num subs) x Hok Hx)
    as [Hxok Hxl].
  cbn [indent_level] in Hxl.
  rewrite step_and_below_eq in Hd. destruct Hd as [<-|Hd].
  - split; [lia|exact Hxok].
  - rewrite Forall_forall in IH. destruct (IH x Hx Hxok d Hd) as [Hlt Hdok].
    split; [lia|exact Hdok].
Qed.

Lemma steps_ok_all c s :
  steps_ok c -> In s (all_steps (steps c)) -> hierarchy_ok s = true.
Proof.
  intros Hc Hs. unfold steps_ok in Hc. rewrite Forall_forall in Hc.
  unfold all_steps in Hs. apply in_flat_map in Hs as (top & Htop & Hs).
  rewrite step_and_below_eq in Hs. destruct Hs as [<-|Hs]; [now apply Hc|].
  exact (proj2 (@below_is_deeper top (Hc top Htop) s Hs)).
Qed.

(** X5. [add_step_to_hierarchy] appends the step to the top-level steps when
    its level is 0 or no step of the checklist has the level just above.
    Otherwise the top-level steps stay as many, and, in document order, the
    step is put right after the sub-steps of a step one level shallower that
    no such step follows; when the checklist satisfies the hierarchy
    invariant, none of those sub-steps is one level shallower either, so
    the parent is the last candidate of the whole document. *)
Theorem add_step_goes_under_last_candidate c new_step lvl :
  (lvl = 0%Z \/
   Forall (fun s => candidate_parent lvl s = false) (all_steps (steps c)) ->
   steps (add_step_to_hierarchy c new_step lvl) = steps c ++ [new_step]) /\
  (lvl <> 0%Z ->
   Exists (fun s => candidate_parent lvl s = true) (all_steps (steps c)) ->
   length (steps (add_step_to_hierarchy c new_step lvl)) = length (steps c) /\
   inserted_after_last_candidate lvl new_step (all_steps (steps c))
     (all_steps (steps (add_step_to_hierarchy c new_step lvl))) /\
   (steps_ok c ->
    forall parent, In parent (all_steps (steps c)) ->
                   candidate_parent lvl parent = true ->
                   Forall (fun s => candidate_parent lvl s = false)
                          (all_steps (sub_steps parent)))).
Proof.
  assert (Hnone :
    try_last_first (fun s => find_parent_and_add_step s new_step lvl) (steps c)
      = None <->
    Forall (fun s => candidate_parent lvl s = false) (all_steps (steps c))).
  { rewrite try_last_first_none. unfold all_steps. rewrite Forall_flat_map.
    rewrite !Forall_forall.
    split; intros H s Hs.
    - apply (find_parent_none_iff new_step lvl s). now apply H.
    - apply (find_parent_none_iff new_step lvl s). now apply H. }
  split.
  - intros H. unfold add_step_to_hierarchy.
    destruct (lvl =? 0)%Z eqn:E; [reflexivity|].
    destruct H as [->|H]; [discriminate|].
    destruct (steps c) as [|s0 l] eqn:Es; [reflexivity|].
    apply Hnone in H. now rewrite H.
  - intros Hlvl Hex. unfold add_step_to_hierarchy.
    apply Z.eqb_neq in Hlvl. rewrite Hlvl.
    destruct (steps c) as [|s0 l] eqn:Es; [inversion Hex|].
    destruct (try_last_first _ (s0 :: l)) as [steps'|] eqn:Et.
    + cbn [steps set_steps]. split; [|split].
      * apply try_last_first_some in Et
          as (pre & x & x' & post & Hl & -> & _).
        rewrite Hl, !length_app. reflexivity.
      * apply (forest_inserted (new_step := new_step) (target := lvl));
          [|exact Et].
        apply Forall_forall. intros x _ x'. apply find_parent_inserted.
      * intros Hok parent Hin Hcand. apply Forall_forall. intros d Hd.
        rewrite <- Es in Hin.
        destruct (@below_is_deeper parent (@steps_ok_all c parent Hok Hin) d Hd)
          as [Hlt _].
        unfold candidate_parent in *. apply Z.eqb_eq in Hcand.
        apply Z.eqb_neq. lia.
    + exfalso. pose proof (proj1 Hnone eq_refl) as Hall.
      rewrite Forall_forall in Hall.
      apply Exists_exists in Hex as (s & Hs & Hc). apply Hall in Hs. congruence.
Qed.

(** ** What every step of the output looks like *)

Lemma inserted_fields target new_step before after f :
  inserted_after_last_candidate target new_step before after ->
  In f (map step_fields after) ->
  In f (map step_fields before) \/ In f (map step_fields (step_and_below new_step)).
Proof.
  intros (front & parent & rest & -> & _ & _ & Hmap) Hin.
  rewrite Hmap in Hin. clear Hmap.
  repeat first [ (rewrite map_app in Hin) | (rewrite in_app_iff in Hin)
               | (progress (cbn [map In] in Hin)) ].
  repeat first [ rewrite map_app | rewrite in_app_iff
               | progress (cbn [map In]) ].
  tauto.
Qed.

Lemma add_step_fields c new_step lvl f :
  In f (map step_fields (all_steps (steps (add_step_to_hierarchy c new_step lvl)))) ->
  In f (map step_fields (all_steps (steps c))) \/
  In f (map step_fields (step_and_below new_step)).
Proof.
  assert (Happ : forall l, all_steps (l ++ [new_step])
                           = all_steps l ++ step_and_below new_step).
  { intros l. unfold all_steps. rewrite flat_map_app. cbn. now rewrite app_nil_r. }
  unfold add_step_to_hierarchy.
  destruct (lvl =? 0)%Z; cbn [steps set_steps].
  { rewrite Happ, map_app, in_app_iff. trivial. }
  destruct (steps c) as [|s0 l] eqn:Es.
  { cbn [steps set_steps]. rewrite Happ, map_app, in_app_iff. trivial. }
  destruct (try_last_first _ (s0 :: l)) as [steps'|] eqn:Et; cbn [steps set_steps].
  - apply inserted_fields with (target := lvl).
    apply (forest_inserted (new_step := new_step) (target := lvl)); [|exact Et].
    apply Forall_forall. intros x _ x'. apply find_parent_inserted.
  - rewrite Happ, map_app, in_app_iff. trivial.
Qed.

(** A property of the fields of a step that the steps of a checklist have is
    kept when a step that has it is added. *)
Lemma add_step_keeps (Q : ChecklistStep -> Prop) c new_step lvl :
  (forall a b, step_fields a = step_fields b -> Q a -> Q b) ->
  Forall Q (all_steps (steps c)) ->
  Forall Q (step_and_below new_step) ->
  Forall Q (all_steps (steps (add_step_to_hierarchy c new_step lvl))).
Proof.
  intros Hloc Hc Hnew. rewrite Forall_forall in *. intros s Hs.
  apply (in_map step_fields) in Hs. apply add_step_fields in Hs.
  destruct Hs as [Hs|Hs]; apply in_map_iff in Hs as (s0 & Heq & Hs0).
  - apply (Hloc s0 s Heq). now apply Hc.
  - apply (Hloc s0 s Heq). now apply Hnew.
Qed.

(** As [every_checklist_invariant], for a property that needs the match
    object of a step to come from [item_pattern]. *)
Lemma every_checklist_invariant_matched (P : Checklist -> Prop) lines :
  (forall t s sub a b d e, P (mkChecklist t s sub a b d e [])) ->
  (forall c a, P c -> P (set_alert_message c a)) ->
  (forall c n t, P c -> P (set_cas c n t)) ->
  (forall c i0 m line, re_match item_pattern line = Some m -> P c ->
      P (add_step_to_hierarchy c (snd (make_step lines i0 m))
                               (indent_level (snd (make_step lines i0 m))))) ->
  forall st, Reachable lines st -> every_checklist P st.
Proof.
  intros Hnew Halert Hcas Hstep st Hst.
  induction Hst as [|st Hst IH Hlt].
  - split; [constructor|discriminate].
  - rewrite loop_body_token.
    destruct (token_at lines st) as [|m|m|m|m|m|m c|] eqn:E; try exact IH.
    + unfold on_title. set (new := mkChecklist _ _ _ _ _ _ _ _).
      assert (Happ : Forall P (append_current (advance st)))
        by now apply every_checklist_append.
      destruct (_ || _); (split; cbn; [exact Happ|]);
        intros c [= <-]; apply Hnew.
    + unfold on_pfd. destruct IH as [Hall Hcur]. cbn [advance current_checklist].
      destruct (current_checklist st) as [c|] eqn:Ec;
        (split; cbn; [exact Hall|]); [|discriminate].
      intros c' [= <-]. apply Halert. now apply Hcur.
    + unfold on_cas. destruct (cas_lookahead _ _ _ _) as [ty i'].
      destruct IH as [Hall Hcur]. cbn [advance current_checklist].
      destruct (current_checklist st) as [c|] eqn:Ec;
        (split; cbn; [exact Hall|]); [|discriminate].
      intros c' [= <-]. apply Hcas. now apply Hcur.
    + rewrite on_step_eq. destruct IH as [Hall Hcur].
      unfold token_at in E. apply classify_step_item in E as [Ec Hm].
      split; cbn; [exact Hall|].
      intros c' [= <-]. apply (Hstep c _ m _ Hm). now apply Hcur.
Qed.

Lemma make_step_built_ok lines i0 line m :
  re_match item_pattern line = Some m ->
  step_built_ok (snd (make_step lines i0 m)).
Proof.
  intros Hm. rewrite make_step_eq. unfold step_built_ok.
  cbn [action is_conditional instruction]. split; [|split; [|reflexivity]].
  - unfold numbered_by_form. cbn [step_number indent_level].
    apply item_match_shape in Hm as (ws & Hws & _ & Hform).
    assert (Hne : forall N : str, 1 <= length N -> N <> [])
      by (intros [|? ?] H; [cbn in H; lia|discriminate]).
    destruct Hform as [(N & rest & _ & HN & Hlen & -> & -> & ->)
                      |[(N & rest & _ & HN & Hlen & -> & -> & ->)
                       |(x & rest & _ & Hx & -> & -> & ->)]].
    + left. exists N. pose proof (Hne N Hlen).
      destruct N; [contradiction|]. auto.
    + right. right. exists N. pose proof (Hne N Hlen).
      destruct N; [contradiction|]. auto.
    + right. left. exists x. auto.
  - destruct (truthy (m_action _)) eqn:E.
    + apply strip_no_dot, sub_dots_no_dot.
    + destruct (m_action _); [reflexivity|discriminate].
Qed.

Lemma step_built_ok_fields a b :
  step_fields a = step_fields b -> step_built_ok a -> step_built_ok b.
Proof.
  unfold step_fields, step_built_ok, numbered_by_form.
  intros [= Hi Ha Hc Hl Hn]. now rewrite Hi, Ha, Hc, Hl, Hn.
Qed.

Lemma parse_checklist_steps_built_ok lines :
  Forall (fun c => Forall step_built_ok (all_steps (steps c)))
         (parse_checklist lines).
Proof.
  destruct (parse_checklist_reachable lines) as (st & Hst & _ & ->).
  apply every_checklist_append.
  apply (@every_checklist_invariant_matched
           (fun c => Forall step_built_ok (all_steps (steps c))) lines);
    try exact Hst.
  - intros. constructor.
  - intros c a H. exact H.
  - intros c n t H. exact H.
  - intros c i0 m line Hm H.
    pose proof (make_step_built_ok lines i0 line Hm) as Hnew.
    apply add_step_keeps; [exact step_built_ok_fields|exact H|].
    rewrite step_and_below_eq, make_step_leaf. cbn. constructor; [exact Hnew|constructor].
Qed.

(** X6. Every step of every checklist a parse produces is numbered in one of
    the three forms, with the level of that form (digits: 0, one lowercase
    letter: 1, digits in parentheses: 2); its action holds no dot; and its
    conditional flag is the prefix test on its final instruction. *)
Theorem output_steps_are_numbered lines c s :
  In c (parse_checklist lines) ->
  In s (all_steps (steps c)) ->
  numbered_by_form s /\ no_dot (action s) = true /\
  is_conditional s = conditional (instruction s).
Proof.
  intros Hc Hs.
  pose proof (parse_checklist_steps_built_ok lines) as H.
  rewrite Forall_forall in H. specialize (H c Hc).
  rewrite Forall_forall in H. exact (H s Hs).
Qed.

(** ** How deep the output nests *)

Lemma numbered_level s :
  numbered_by_form s -> (0 <= indent_level s <= 2)%Z.
Proof.
  intros [(N & _ & _ & _ & ->)|[(x & _ & _ & ->)|(N & _ & _ & _ & ->)]]; lia.
Qed.

Lemma height_eq s :
  height s = S (fold_right (fun sub n => Nat.max (height sub) n) 0 (sub_steps s)).
Proof. destruct s; reflexivity. Qed.

Lemma height_bound s :
  hierarchy_ok s = true ->
  Forall (fun d => (0 <= indent_level d <= 2)%Z) (step_and_below s) ->
  (Z.of_nat (height s) <= 3 - indent_level s)%Z.
Proof.
  induction s as [ins act cond lvl num subs IH] using ChecklistStep_tree_ind.
  intros Hok Hlv. rewrite height_eq. cbn [sub_steps indent_level].
  cbn [step_and_below] in Hlv. inversion Hlv as [|? ? Hl Hbelow]; subst.
  cbn [indent_level] in Hl.
  assert (Hsubs : forall sub, In sub subs ->
                  (Z.of_nat (height sub) <= 2 - lvl)%Z).
  { intros sub Hin.
    destruct (@hierarchy_ok_sub (mkStep ins act cond lvl num subs) sub Hok Hin)
      as [Hsok Hsl].
    cbn [indent_level] in Hsl.
    rewrite Forall_forall in IH. specialize (IH sub Hin Hsok).
    assert (Hb : Forall (fun d => (0 <= indent_level d <= 2)%Z) (step_and_below sub)).
    { rewrite Forall_forall in *. intros d Hd. apply Hbelow.
      apply in_flat_map. eauto. }
    specialize (IH Hb). lia. }
  clear IH Hok Hlv Hbelow.
  induction subs as [|x subs IHs]; cbn [fold_right]; [lia|].
  assert (Hx := Hsubs x (or_introl eq_refl)).
  assert (Hrest : forall sub, In sub subs -> (Z.of_nat (height sub) <= 2 - lvl)%Z)
    by (intros sub Hin; apply Hsubs; now right).
  specialize (IHs Hrest). lia.
Qed.

Lemma below_below top : forall s d,
  In s (step_and_below top) -> In d (all_steps (sub_steps s)) ->
  In d (step_and_below top).
Proof.
  induction top as [ins act cond lvl num subs IH] using ChecklistStep_tree_ind.
  intros s d Hs Hd. rewrite step_and_below_eq in Hs |- *.
  cbn [sub_steps] in *. destruct Hs as [<-|Hs]; [now right|].
  right. unfold all_steps in *. apply in_flat_map in Hs as (x & Hx & Hs).
  apply in_flat_map. exists x. split; [exact Hx|].
  rewrite Forall_forall in IH. exact (IH x Hx s d Hs Hd).
Qed.

Lemma below_in_all l s d :
  In s (all_steps l) -> In d (all_steps (sub_steps s)) -> In d (all_steps l).
Proof.
  unfold all_steps at 1 3. intros Hs Hd.
  apply in_flat_map in Hs as (top & Htop & Hs).
  apply in_flat_map. exists top. split; [exact Htop|].
  exact (below_below top s d Hs Hd).
Qed.

(** X7. In the output no step tree has more than three levels: for every
    step, its level plus the number of levels of the tree it heads is at
    most 3, so a step of level 2 has no sub-step. *)
Theorem output_nests_three_levels_at_most lines c s :
  In c (parse_checklist lines) ->
  In s (all_steps (steps c)) ->
  (indent_level s + Z.of_nat (height s) <= 3)%Z /\
  (indent_level s = 2%Z -> sub_steps s = []).
Proof.
  intros Hc Hs.
  pose proof (parse_checklist_steps_ok lines) as Hok.
  rewrite Forall_forall in Hok. specialize (Hok c Hc).
  pose proof (parse_checklist_steps_built_ok lines) as Hb.
  rewrite Forall_forall in Hb. specialize (Hb c Hc). rewrite Forall_forall in Hb.
  assert (Hsok : hierarchy_ok s = true) by exact (@steps_ok_all c s Hok Hs).
  assert (Hlv : Forall (fun d => (0 <= indent_level d <= 2)%Z) (step_and_below s)).
  { apply Forall_forall. intros d Hd. apply numbered_level.
    rewrite step_and_below_eq in Hd. destruct Hd as [<-|Hd].
    - exact (proj1 (Hb s Hs)).
    - exact (proj1 (Hb d (@below_in_all (steps c) s d Hs Hd))). }
  pose proof (height_bound s Hsok Hlv) as Hh.
  split; [lia|].
  intros H2. rewrite height_eq in Hh.
  destruct (sub_steps s) as [|c0 l]; [reflexivity|]. cbn [fold_right] in Hh.
  pose proof (height_eq c0). lia.
Qed.

(** ** CAS messages once a checklist is open *)

Lemma on_title_no_pending_cas st m :
  pending_cas_ok st ->
  pending_cas (on_title (advance st) m) = None /\
  pending_cas_type (on_title (advance st) m) = None.
Proof.
  intros [Hne Hty]. unfold on_title. cbn [advance pending_cas pending_pfd_alert].
  destruct (pending_cas st) as [[|x name]|] eqn:Ep; cbn; auto.
  - exfalso. now apply Hne.
  - specialize (Hty eq_refl).
    destruct (otruthy (pending_pfd_alert st)); cbn; auto.
Qed.

Lemma reachable_open_no_pending_cas lines st :
  Reachable lines st ->
  is_some (current_checklist st) = true ->
  pending_cas st = None /\ pending_cas_type st = None.
Proof.
  induction 1 as [|st Hst IH Hlt]; [discriminate|].
  pose proof (reachable_pending_cas_ok Hst) as Hok.
  rewrite loop_body_token.
  destruct (token_at lines st) as [|m|m|m|m|m|m c|] eqn:E; cbn; try exact IH.
  - intros _. now apply on_title_no_pending_cas.
  - unfold on_pfd. cbn [advance current_checklist].
    destruct (current_checklist st); cbn; [intros _; now apply IH|discriminate].
  - unfold on_cas. destruct (cas_lookahead _ _ _ _). cbn [advance current_checklist].
    destruct (current_checklist st); cbn; [auto|discriminate].
  - rewrite on_step_eq. cbn. intros _. apply IH.
    unfold token_at in E. apply classify_step_item in E as [-> _]. reflexivity.
Qed.

(** X8. Once a checklist is open no CAS name or type is pending any more.
    So a CAS message met from then on is written into the checklist open at
    that moment, the one whose title came before it, and a checklist whose
    title is read while another is open starts without [cas] and
    [cas_type]. *)
Theorem cas_goes_to_the_open_checklist lines st c :
  Reachable lines st ->
  current_checklist st = Some c ->
  (pending_cas st = None /\ pending_cas_type st = None) /\
  (forall m, token_at lines st = CasMessage m ->
     exists type,
       current_checklist (loop_body lines st)
         = Some (set_cas c (Some (strip (group_str 1 m))) type) /\
       pending_cas (loop_body lines st) = None) /\
  (forall m, token_at lines st = ChecklistTitle m ->
     exists c', current_checklist (loop_body lines st) = Some c' /\
                cas c' = None /\ cas_type c' = None).
Proof.
  intros Hst Hc.
  assert (Hp : pending_cas st = None /\ pending_cas_type st = None).
  { apply (reachable_open_no_pending_cas Hst). now rewrite Hc. }
  split; [exact Hp|]. split.
  - intros m Htok. rewrite loop_body_token, Htok. unfold on_cas.
    destruct (cas_lookahead _ _ _ _) as [ty i']. cbn [advance current_checklist].
    rewrite Hc. exists ty. split; reflexivity.
  - intros m Htok. rewrite loop_body_token, Htok, on_title_current.
    eexists. split; [reflexivity|]. cbn [cas cas_type advance pending_cas pending_cas_type].
    exact Hp.
Qed.

(** ** The fields of the checklists of the output *)

Lemma lstrip_head s c r : lstrip s = c :: r -> is_space c = false.
Proof.
  induction s as [|x s IH]; cbn [lstrip]; [discriminate|].
  destruct (is_space x) eqn:E; [exact IH|]. intros [= <- _]. exact E.
Qed.

(** A stripped line does not end with white space. *)
Lemma rstrip_last s a z : rstrip s = a ++ [z] -> is_space z = false.
Proof.
  unfold rstrip. intros H. apply (f_equal (@rev ascii)) in H.
  rewrite rev_involutive, rev_app_distr in H. cbn in H.
  exact (lstrip_head _ H).
Qed.

(** The title of a checklist is not empty. *)
Lemma title_not_empty raw m :
  re_match checklist_pattern (rstrip raw) = Some m ->
  strip (group_str 1 m) <> [].
Proof.
  intros H. apply re_match_sound in H as [s' H].
  cbn [Match cat checklist_pattern] in H.
  destruct H as (s1 & cs1 & (Hl & ->) & s2 & cs2
                 & (w & cs3 & (w' & Hw & Hlen & Hs1 & ->) & Hs1' & ->)
                 & _ & -> & Hend).
  rewrite Hs1 in Hs1'. apply app_inv_tail in Hs1' as <-.
  unfold group_str. cbn [group Nat.eqb ostr].
  assert (Hne : w' <> []) by (destruct w'; [cbn in Hlen; lia|discriminate]).
  destruct (exists_last Hne) as (w0 & z & ->).
  assert (Hz : is_space z = false).
  { destruct Hend as [-> | ->].
    - rewrite app_nil_r in Hs1. subst s1. rewrite app_assoc in Hl.
      exact (@rstrip_last _ _ _ Hl).
    - subst s1. rewrite !app_assoc in Hl.
      apply rstrip_last in Hl. discriminate. }
  apply (@in_not_nil _ z), strip_keeps; [|exact Hz].
  apply in_or_app. right. now left.
Qed.

Lemma classify_title_match cur line m :
  classify cur line = ChecklistTitle m ->
  re_match checklist_pattern line = Some m.
Proof.
  unfold classify, classify_step.
  repeat match goal with
         | |- context [match ?x with _ => _ end] => destruct x eqn:?
         end; try discriminate; now intros [= <-].
Qed.

Lemma cas_lookahead_type (lines : list str) st line name :
  cas_type_ok (pending_cas_type st) ->
  cas_type_ok (fst (cas_lookahead lines st line name)).
Proof.
  intros H. unfold cas_lookahead, cas_type_ok.
  repeat match goal with
         | |- context [if ?b then _ else _] => destruct b
         end; cbn [fst]; auto.
Qed.

Lemma reachable_checklist_fields lines st :
  Reachable lines st ->
  cas_type_ok (pending_cas_type st) /\
  every_checklist (fun c => title c <> [] /\ cas_fields_ok c) st.
Proof.
  induction 1 as [|st Hst [IHt [Hall Hcur]] Hlt].
  { split; [now left|]. split; [constructor|discriminate]. }
  pose proof (reachable_pending_cas_ok Hst) as [Hne Hty].
  rewrite loop_body_token.
  destruct (token_at lines st) as [|m|m|m|m|m|m c|] eqn:E;
    try (split; [exact IHt|split; assumption]).
  - (* title *)
    unfold token_at in E. apply classify_title_match in E.
    unfold line_at in E. apply title_not_empty in E.
    assert (Happ : Forall (fun c => title c <> [] /\ cas_fields_ok c)
                          (append_current (advance st)))
      by (apply every_checklist_append; split; assumption).
    unfold on_title. set (new := mkChecklist _ _ _ _ _ _ _ _).
    assert (Hnew : title new <> [] /\ cas_fields_ok new).
    { split; [exact E|]. unfold cas_fields_ok. cbn. auto. }
    destruct (_ || _); cbn.
    + split; [now left|]. split; cbn; [exact Happ|]. now intros c [= <-].
    + split; [exact IHt|]. split; cbn; [exact Happ|]. now intros c [= <-].
  - (* PFD alert *)
    unfold on_pfd. cbn [advance current_checklist].
    destruct (current_checklist st) as [c|] eqn:Ec; cbn;
      (split; [exact IHt|]); (split; cbn; [exact Hall|]); [|discriminate].
    intros c' [= <-]. exact (Hcur c eq_refl).
  - (* CAS message *)
    unfold token_at in E. apply classify_cas_message, cas_name_not_empty in E.
    unfold on_cas.
    pose proof (@cas_lookahead_type lines (advance st) (line_at lines (i st))
                  (strip (group_str 1 m)) IHt) as Hlook.
    destruct (cas_lookahead _ _ _ _) as [ty i']. cbn [fst] in Hlook.
    cbn [advance current_checklist].
    destruct (current_checklist st) as [c|] eqn:Ec; cbn.
    + split; [now left|]. split; cbn; [exact Hall|].
      intros c' [= <-]. destruct (Hcur c eq_refl) as [Ht _].
      split; [exact Ht|]. unfold cas_fields_ok. cbn.
      split; [congruence|]. split; [discriminate|exact Hlook].
    + split; [exact Hlook|]. split; cbn; [exact Hall|discriminate].
  - (* step *)
    rewrite on_step_eq. unfold token_at in E.
    apply classify_step_item in E as [Ec _]. cbn.
    split; [exact IHt|]. split; cbn; [exact Hall|].
    intros c' [= <-]. destruct (Hcur c Ec) as [Ht Hf].
    destruct (add_step_to_hierarchy_frame c (snd (make_step lines (S (i st)) m))
                (indent_level (snd (make_step lines (S (i st)) m))))
      as (Et & _ & _ & Ecas & Ety & _).
    unfold cas_fields_ok in *. now rewrite Et, Ecas, Ety.
Qed.

(** X9. Every checklist a parse produces has a title that is not empty; its
    [cas], when present, is not empty; it has no [cas_type] without a [cas];
    and its [cas_type] is absent, [Caution] or [Advisory]. *)
Theorem output_checklist_fields lines c :
  In c (parse_checklist lines) ->
  title c <> [] /\ cas_fields_ok c.
Proof.
  destruct (parse_checklist_reachable lines) as (st & Hst & _ & ->).
  revert c. apply Forall_forall, every_checklist_append.
  exact (proj2 (reachable_checklist_fields Hst)).
Qed.

(** ** The validator on the output of a parse *)

Lemma hierarchy_ok_consistent s :
  hierarchy_ok s = true -> inconsistent_indentation s = false.
Proof.
  intros H. unfold inconsistent_indentation.
  destruct (existsb _ (sub_steps s)) eqn:E; [|reflexivity].
  apply existsb_exists in E as (sub & Hin & Hle).
  destruct (hierarchy_ok_sub s sub H Hin) as [_ Hl].
  apply Z.leb_le in Hle. lia.
Qed.

Lemma count_where_none (A : Type) (f : A -> bool) l :
  Forall (fun x => f x = false) l -> count_where f l = 0.
Proof.
  induction 1 as [|x l Hx _ IH]; [reflexivity|].
  now rewrite count_where_cons, Hx, IH.
Qed.

Lemma validate_steps_list_counts l t :
  validate_steps l t =
  count_where missing_instruction (all_steps l)
  + count_where inconsistent_indentation (all_steps l).
Proof.
  unfold validate_steps, all_steps.
  induction l as [|s l IH]; [reflexivity|].
  cbn [fold_right flat_map]. rewrite !count_where_app, IH, validate_step_counts.
  lia.
Qed.

Lemma validate_good_checklists l :
  Forall (fun c => title c <> [] /\ steps c <> [] /\ steps_ok c) l ->
  validate_checklists l =
  fold_right (fun c n => b2n (negb (truthy (section c)))
                         + count_where missing_instruction (all_steps (steps c))
                         + n) 0 l.
Proof.
  induction 1 as [|c l (Ht & Hs & Hok) _ IH]; [reflexivity|].
  unfold validate_checklists in *. cbn [fold_right]. rewrite IH.
  rewrite validate_steps_list_counts.
  assert (H1 : truthy (title c) = true) by (destruct (title c); [contradiction|reflexivity]).
  assert (H2 : match steps c with [] => true | _ :: _ => false end = false)
    by (destruct (steps c); [contradiction|reflexivity]).
  assert (H3 : count_where inconsistent_indentation (all_steps (steps c)) = 0).
  { apply count_where_none, Forall_forall. intros s Hin.
    apply hierarchy_ok_consistent. exact (@steps_ok_all c s Hok Hin). }
  rewrite H1, H2, H3. cbn [negb b2n]. lia.
Qed.

(** X10. On the output of a parse the validator finds no checklist without
    a title, none without steps and no inconsistent indentation: the issues
    it counts are the checklists without a section and the steps without an
    instruction. *)
Theorem validator_on_parse_output lines :
  validate_checklists (parse_checklist lines) =
  fold_right (fun c n => b2n (negb (truthy (section c)))
                         + count_where missing_instruction (all_steps (steps c))
                         + n) 0 (parse_checklist lines).
Proof.
  apply validate_good_checklists, Forall_forall. intros c Hc.
  pose proof (parse_checklist_steps_ok lines) as Hok.
  rewrite Forall_forall in Hok.
  destruct (parse_checklist_reachable lines) as (st & Hst & _ & Heq).
  split; [|split; [|exact (Hok c Hc)]].
  - rewrite Heq in Hc.
    pose proof (every_checklist_append (proj2 (reachable_checklist_fields Hst))) as H.
    rewrite Forall_forall in H. exact (proj1 (H c Hc)).
  - unfold parse_checklist in Hc. rewrite scan_closed_by in Hc. cbn [app] in Hc.
    apply filter_In in Hc as [_ Hc]. unfold has_steps in Hc.
    now destruct (steps c).
Qed.

(** ** What the lookahead for continuation lines consumes *)




(** ** PFD alerts once a checklist is open *)

Lemma reachable_open_no_pending_alert lines st :
  Reachable lines st ->
  is_some (current_checklist st) = true ->
  otruthy (pending_pfd_alert st) = false.
Proof.
  induction 1 as [|st Hst IH Hlt]; [discriminate|].
  pose proof (reachable_pending_cas_ok Hst) as Hok.
  rewrite loop_body_token.
  destruct (token_at lines st) as [|m|m|m|m|m|m c|] eqn:E; cbn; try exact IH.
  - intros _. unfold on_title. cbn [advance pending_cas pending_pfd_alert].
    destruct (otruthy (pending_cas st) || otruthy (pending_pfd_alert st)) eqn:Eg;
      cbn; [reflexivity|].
    now apply orb_false_elim in Eg as [_ ?].
  - unfold on_pfd. cbn [advance current_checklist].
    destruct (current_checklist st); cbn; [reflexivity|discriminate].
  - unfold on_cas. destruct (cas_lookahead _ _ _ _). cbn [advance current_checklist].
    destruct (current_checklist st) eqn:Ec; cbn; [|discriminate].
    intros _. now apply IH.
  - rewrite on_step_eq. cbn. intros _. apply IH.
    unfold token_at in E. apply classify_step_item in E as [-> _]. reflexivity.
Qed.

(** X12. Once a checklist is open no PFD alert text is pending (at most the
    empty string is).  A PFD alert line met from then on replaces the
    [alert_message] of the checklist open at that moment and leaves nothing
    pending, so the checklist whose title follows does not get it. *)
Theorem pfd_alert_goes_to_the_open_checklist lines st c :
  Reachable lines st ->
  current_checklist st = Some c ->
  otruthy (pending_pfd_alert st) = false /\
  forall m, token_at lines st = PfdAlert m ->
    current_checklist (loop_body lines st)
      = Some (set_alert_message c (Some (strip (group_str 1 m)))) /\
    pending_pfd_alert (loop_body lines st) = None.
Proof.
  intros Hst Hc. split.
  - apply (reachable_open_no_pending_alert Hst). now rewrite Hc.
  - intros m Htok. rewrite loop_body_token, Htok. unfold on_pfd.
    cbn [advance current_checklist]. rewrite Hc. split; reflexivity.
Qed.

(** ** Where the scan resumes after the lookahead *)

Lemma merge_continuations_position rest : forall j i0 ins act,
  m_i (merge_continuations rest j i0 ins act) + j
  = i0 + m_j (merge_continuations rest j i0 ins act)
    - count_where (fun l => negb (truthy (rstrip l)))
        (firstn (m_j (merge_continuations rest j i0 ins act) - j) rest)
  /\ count_where (fun l => negb (truthy (rstrip l)))
        (firstn (m_j (merge_continuations rest j i0 ins act) - j) rest)
     <= m_j (merge_continuations rest j i0 ins act) - j.
Proof.
  induction rest as [|l rest IH]; intros j i0 ins act; cbn [merge_continuations].
  - cbn. rewrite Nat.sub_diag. cbn. lia.
  - destruct (truthy (rstrip l)) eqn:Eb; cbn [negb].
    + destruct (starts_new_pattern (rstrip l)).
      * cbn [m_i m_j]. rewrite Nat.sub_diag. cbn. lia.
      * destruct (merge_line (rstrip l) ins act) as [ins' act'].
        specialize (IH (S j) (S i0) ins' act').
        pose proof (merge_continuations_bounds rest (S j) (S i0) ins' act') as Hb.
        cbn zeta in Hb.
        set (mg := merge_continuations rest (S j) (S i0) ins' act') in *.
        replace (m_j mg - j) with (S (m_j mg - S j)) by lia.
        cbn [firstn]. rewrite count_where_cons. cbn beta. rewrite Eb. cbn [negb b2n].
        lia.
    + specialize (IH (S j) i0 ins act).
      pose proof (merge_continuations_bounds rest (S j) i0 ins act) as Hb.
      cbn zeta in Hb.
      set (mg := merge_continuations rest (S j) i0 ins act) in *.
      replace (m_j mg - j) with (S (m_j mg - S j)) by lia.
      cbn [firstn]. rewrite count_where_cons. cbn beta. rewrite Eb. cbn [negb b2n].
      lia.
Qed.

(** X13. When none of the lines the lookahead passes is blank, the scan
    resumes exactly where the lookahead stopped: at the first line that
    matches a pattern, or at the end of the input. *)
Theorem scan_resumes_where_lookahead_stopped rest j ins act :
  Forall (fun l => truthy (rstrip l) = true)
         (firstn (m_j (merge_continuations rest j j ins act) - j) rest) ->
  m_i (merge_continuations rest j j ins act)
  = m_j (merge_continuations rest j j ins act).
Proof.
  intros Hall.
  destruct (merge_continuations_position rest j j ins act) as [Hpos _].
  rewrite count_where_none in Hpos; [lia|].
  eapply Forall_impl; [|exact Hall]. intros l Hl. cbn beta. now rewrite Hl.
Qed.

(** ** Trailing white space *)

Lemma lstrip_idem s : lstrip (lstrip s) = lstrip s.
Proof.
  induction s as [|c s IH]; [reflexivity|].
  cbn [lstrip]. destruct (is_space c) eqn:E; [exact IH|].
  cbn [lstrip]. now rewrite E.
Qed.

Lemma rstrip_idem s : rstrip (rstrip s) = rstrip s.
Proof. unfold rstrip. now rewrite rev_involutive, lstrip_idem. Qed.

Lemma lstrip_snoc t c :
  lstrip (t ++ [c]) =
  match lstrip t with
  | [] => if is_space c then [] else [c]
  | x :: r => (x :: r) ++ [c]
  end.
Proof.
  induction t as [|a t IH]; cbn [app lstrip]; [reflexivity|].
  destruct (is_space a); [exact IH|reflexivity].
Qed.

Lemma rstrip_cons c s :
  rstrip (c :: s) =
  match rstrip s with
  | [] => if is_space c then [] else [c]
  | x :: r => c :: x :: r
  end.
Proof.
  unfold rstrip. cbn [rev]. rewrite lstrip_snoc.
  destruct (lstrip (rev s)) as [|x r] eqn:E.
  - cbn [rev]. now destruct (is_space c).
  - rewrite rev_app_distr. cbn [rev app].
    destruct (rev r ++ [x]) eqn:E'; [now destruct (rev r)|reflexivity].
Qed.

Lemma lstrip_rstrip s : lstrip (rstrip s) = rstrip (lstrip s).
Proof.
  induction s as [|c s IH]; [reflexivity|].
  cbn [lstrip]. rewrite rstrip_cons.
  destruct (is_space c) eqn:E.
  - rewrite <- IH. destruct (rstrip s); [reflexivity|].
    cbn [lstrip]. now rewrite E.
  - rewrite rstrip_cons. destruct (rstrip s); cbn [lstrip]; now rewrite E.
Qed.

Lemma strip_rstrip s : strip (rstrip s) = strip s.
Proof. unfold strip. now rewrite lstrip_rstrip, rstrip_idem. Qed.

Lemma merge_continuations_rstrip rest : forall j i0 ins act,
  merge_continuations (map rstrip rest) j i0 ins act
  = merge_continuations rest j i0 ins act.
Proof.
  induction rest as [|l rest IH]; intros j i0 ins act; [reflexivity|].
  cbn [map merge_continuations]. rewrite rstrip_idem.
  destruct (negb (truthy (rstrip l))); [apply IH|].
  destruct (starts_new_pattern (rstrip l)); [reflexivity|].
  destruct (merge_line (rstrip l) ins act). apply IH.
Qed.

Lemma nth_map_rstrip (lines : list str) n :
  nth n (map rstrip lines) [] = rstrip (nth n lines []).
Proof. exact (map_nth rstrip lines [] n). Qed.

Lemma loop_body_rstrip (lines : list str) st :
  loop_body (map rstrip lines) st = loop_body lines st.
Proof.
  assert (Hline : line_at (map rstrip lines) (i st) = line_at lines (i st)).
  { unfold line_at. now rewrite nth_map_rstrip, rstrip_idem. }
  unfold loop_body. rewrite Hline.
  destruct (classify _ _) as [|m|m|m|m|m|m c|]; try reflexivity.
  - unfold on_cas, cas_lookahead.
    now rewrite length_map, nth_map_rstrip, strip_rstrip.
  - unfold on_step, make_step.
    now rewrite skipn_map, merge_continuations_rstrip.
Qed.

Lemma scan_rstrip fuel (lines : list str) : forall st,
  scan fuel (map rstrip lines) st = scan fuel lines st.
Proof.
  induction fuel as [|fuel IH]; intros st; cbn [scan]; [reflexivity|].
  rewrite length_map, loop_body_rstrip. now rewrite IH.
Qed.

(** X14. White space at the end of the lines, the line ends among it,
    decides nothing: a parse of the stripped lines gives the same
    checklists. *)
Theorem parse_ignores_trailing_white_space (lines : list str) :
  parse_checklist (map rstrip lines) = parse_checklist lines.
Proof. unfold parse_checklist. now rewrite length_map, scan_rstrip. Qed.

(** ** The properties above with a hypothesis, at sample inputs *)

(** X6 at the sub-step of the example of the specification. *)
Lemma output_steps_are_numbered_witness :
  In engine_fire_checklist (parse_checklist engine_fire_lines) /\
  In mixture_step (all_steps (steps engine_fire_checklist)) /\
  (numbered_by_form mixture_step /\ no_dot (action mixture_step) = true /\
   is_conditional mixture_step = conditional (instruction mixture_step)).
Proof.
  assert (H1 : In engine_fire_checklist (parse_checklist engine_fire_lines))
    by (vm_compute; auto).
  assert (H2 : In mixture_step (all_steps (steps engine_fire_checklist)))
    by (vm_compute; auto).
  split; [exact H1|]. split; [exact H2|].
  exact (@output_steps_are_numbered engine_fire_lines engine_fire_checklist
           mixture_step H1 H2).
Defined.

(** X7 at the top-level step of the example of the specification. *)
Lemma output_nests_three_levels_at_most_witness :
  In engine_fire_checklist (parse_checklist engine_fire_lines) /\
  In fuel_selector_step (all_steps (steps engine_fire_checklist)) /\
  ((indent_level fuel_selector_step + Z.of_nat (height fuel_selector_step) <= 3)%Z /\
   (indent_level fuel_selector_step = 2%Z -> sub_steps fuel_selector_step = [])).
Proof.
  assert (H1 : In engine_fire_checklist (parse_checklist engine_fire_lines))
    by (vm_compute; auto).
  assert (H2 : In fuel_selector_step (all_steps (steps engine_fire_checklist)))
    by (vm_compute; auto).
  split; [exact H1|]. split; [exact H2|].
  exact (@output_nests_three_levels_at_most engine_fire_lines
           engine_fire_checklist fuel_selector_step H1 H2).
Defined.

(** X8 in front of the second title of [cas_then_two_checklists_lines]. *)
Lemma cas_goes_to_the_open_checklist_witness :
  Reachable cas_then_two_checklists_lines
            (scan 3 cas_then_two_checklists_lines init_state) /\
  current_checklist (scan 3 cas_then_two_checklists_lines init_state)
    = Some checklist_a_with_cas /\
  (pending_cas (scan 3 cas_then_two_checklists_lines init_state) = None /\
   pending_cas_type (scan 3 cas_then_two_checklists_lines init_state) = None).
Proof.
  assert (H1 : Reachable cas_then_two_checklists_lines
                         (scan 3 cas_then_two_checklists_lines init_state))
    by (apply scan_reachable; constructor).
  assert (H2 : current_checklist (scan 3 cas_then_two_checklists_lines init_state)
               = Some checklist_a_with_cas)
    by (vm_compute; reflexivity).
  split; [exact H1|]. split; [exact H2|].
  exact (proj1 (@cas_goes_to_the_open_checklist cas_then_two_checklists_lines
                  (scan 3 cas_then_two_checklists_lines init_state)
                  checklist_a_with_cas H1 H2)).
Defined.

(** X9 at the example of the specification. *)
Lemma output_checklist_fields_witness :
  In engine_fire_checklist (parse_checklist engine_fire_lines) /\
  (title engine_fire_checklist <> [] /\ cas_fields_ok engine_fire_checklist).
Proof.
  assert (H1 : In engine_fire_checklist (parse_checklist engine_fire_lines))
    by (vm_compute; auto).
  split; [exact H1|].
  exact (@output_checklist_fields engine_fire_lines engine_fire_checklist H1).
Defined.

(** X12 in front of the second title of [cas_then_two_checklists_lines]. *)
Lemma pfd_alert_goes_to_the_open_checklist_witness :
  Reachable cas_then_two_checklists_lines
            (scan 3 cas_then_two_checklists_lines init_state) /\
  current_checklist (scan 3 cas_then_two_checklists_lines init_state)
    = Some checklist_a_with_cas /\
  otruthy (pending_pfd_alert (scan 3 cas_then_two_checklists_lines init_state))
    = false.
Proof.
  assert (H1 : Reachable cas_then_two_checklists_lines
                         (scan 3 cas_then_two_checklists_lines init_state))
    by (apply scan_reachable; constructor).
  assert (H2 : current_checklist (scan 3 cas_then_two_checklists_lines init_state)
               = Some checklist_a_with_cas)
    by (vm_compute; reflexivity).
  split; [exact H1|]. split; [exact H2|].
  exact (proj1 (@pfd_alert_goes_to_the_open_checklist
                  cas_then_two_checklists_lines
                  (scan 3 cas_then_two_checklists_lines init_state)
                  checklist_a_with_cas H1 H2)).
Defined.

(** X13 at a continuation line followed by a step line. *)
Lemma scan_resumes_where_lookahead_stopped_witness :
  Forall (fun l => truthy (rstrip l) = true)
         (firstn (m_j (merge_continuations continuation_then_step_lines 2 2
                         (L "A") (L "B")) - 2)
                 continuation_then_step_lines) /\
  m_i (merge_continuations continuation_then_step_lines 2 2 (L "A") (L "B"))
  = m_j (merge_continuations continuation_then_step_lines 2 2 (L "A") (L "B")).
Proof.
  assert (H : Forall (fun l => truthy (rstrip l) = true)
                (firstn (m_j (merge_continuations continuation_then_step_lines 2 2
                                (L "A") (L "B")) - 2)
                        continuation_then_step_lines))
    by (vm_compute; repeat constructor).
  split; [exact H|].
  exact (@scan_resumes_where_lookahead_stopped continuation_then_step_lines 2
           (L "A") (L "B") H).
Defined.
